(** * PersonalExam: adaptive assessment core

    A shallow embedding of the adaptive assessment engine of the repository:

    - [utils/bkt_algorithm.py]: the Bayesian Knowledge Tracing mastery tracker
      (module [BKT]);
    - [system_core.py]: the adaptive question selector and the session
      operations (module [Core]);
    - [knowledge_management/kg_builder.py]: the knowledge-graph builder
      (modules [DiGraph], [KGBuilder]);
    - [knowledge_management/rag_engine.py]: the graph relevance score
      (module [RAG]).

    Python [float]s are IEEE 754 binary64 numbers; they are modelled by Rocq's
    primitive floats, whose operations are the same correctly rounded ones, so
    that every arithmetic expression below evaluates to the double the
    interpreter computes.  Python dictionaries used as string-keyed maps are
    [gmap]s where the iteration order is irrelevant and insertion-ordered
    association lists where the code iterates over them. *)

From Stdlib Require Import ZArith QArith Qabs Floats Uint63.
From stdpp Require Import base option list gmap strings pretty.

Set Warnings "-inexact-float".
Set Default Proof Using "Type".

(** ** Python values shared by the modules *)

Module Py.

(** The outcome of a call that may raise: the returned value, or the class
    of the exception (a subclass of [Exception]) and its message
    ([str(e)]). *)
Inductive result (A : Type) : Type :=
| Ok (a : A)
| Raise (cls msg : string).
Arguments Ok {A} a.
Arguments Raise {A} cls msg.

Definition bind {A B} (r : result A) (k : A → result B) : result B :=
  match r with
  | Ok a => k a
  | Raise cls msg => Raise cls msg
  end.

(** [max(a, b)] and [min(a, b)] on two positional arguments: the first
    argument is kept unless the second compares strictly greater (smaller). *)
Definition max (a b : float) : float := if (a <? b)%float then b else a.
Definition min (a b : float) : float := if (b <? a)%float then b else a.

(** An [int] converted to [float] (exact below 2^53). *)
Definition float_of_nat (n : nat) : float :=
  of_uint63 (Uint63.of_Z (Z.of_nat n)).

(** [sum(xs)] over floats, added from left to right starting from 0, and
    [sum(bs)] over booleans. *)
Definition sum (xs : list float) : float :=
  fold_left (λ acc x, (acc + x)%float) xs 0%float.
Definition sum_bool (bs : list bool) : nat :=
  length (filter (λ b, b = true) bs).

(** [a / b] on two [int]s (true division). *)
Definition truediv (a b : nat) : float :=
  (float_of_nat a / float_of_nat b)%float.

(** Closed and half-open float intervals, as the boolean comparisons of the
    interpreter decide them. *)
Definition fle (a b : float) : Prop := (a <=? b)%float = true.
Definition flt (a b : float) : Prop := (a <? b)%float = true.
Definition within (lo hi x : float) : Prop := fle lo x ∧ fle x hi.

(** The rational number a finite double stands for, and "equal to the exact
    value [q] up to the tolerance 1e-6". *)
Definition Q_of_float (x : float) : option Q :=
  match Prim2SF x with
  | S754_zero _ => Some 0%Q
  | S754_finite s m e =>
      Some ((if s then -1 else 1) * inject_Z (Z.pos m) * Qpower 2 e)%Q
  | _ => None
  end.

Definition close_to (x : float) (q : Q) : Prop :=
  match Q_of_float x with
  | Some v => (Qabs (v - q) < 1 / 1000000)%Q
  | None => False
  end.

(** A [dict] with string keys whose iteration order matters: insertion
    ordered, an assignment to an existing key keeps its position. *)
Definition dict (V : Type) : Type := list (string * V).

Fixpoint dict_get {V} (d : dict V) (k : string) : option V :=
  match d with
  | [] => None
  | (k', v) :: d' => if decide (k' = k) then Some v else dict_get d' k
  end.

Fixpoint dict_set {V} (d : dict V) (k : string) (v : V) : dict V :=
  match d with
  | [] => [(k, v)]
  | (k', v') :: d' =>
      if decide (k' = k) then (k, v) :: d' else (k', v') :: dict_set d' k v
  end.

Definition dict_values {V} (d : dict V) : list V := d.*2.

(** [random.choice(seq)]: [seq[randbelow(len(seq))]], and [IndexError] on an
    empty sequence.  The generator's draw is the argument [r], reduced to the
    range of indices. *)
Definition random_choice {A} (r : nat) (seq : list A) : result A :=
  match seq !! (r mod length seq)%nat with
  | Some x => Ok x
  | None => Raise "IndexError" "Cannot choose from an empty sequence"
  end.

End Py.

(** The value under the key '难度': a label in the question store, a number
    where the graph scorer reads it. *)
Inductive Difficulty : Type :=
| DLabel (label : string)
| DNumber (x : float).

(** A question of the question store ([Dict[str, Any]], never empty).  A key
    that is absent is [None]; [q.get(key)] is the field. *)
Record Question := mkQuestion {
  q_id : option Z;                    (* '题号' *)
  q_difficulty : option Difficulty;   (* '难度' *)
  q_major : option string;            (* '知识点大类' *)
  q_major_en : option string;         (* 'knowledge_point_major' *)
  q_minor : option string;            (* '知识点小类' *)
  q_minor_en : option string;         (* 'knowledge_point_minor' *)
  q_text : string;                    (* '问题' *)
  q_answer : string;                  (* '答案' *)
  q_explanation : string              (* '解析' *)
}.

(** The three difficulty labels of the question store. *)
Definition EASY : string := "简单".
Definition MEDIUM : string := "中等".
Definition HARD : string := "困难".

(** [q.get('难度') == label] *)
Definition difficulty_is (label : string) (q : Question) : bool :=
  match q_difficulty q with
  | Some (DLabel l) => bool_decide (l = label)
  | _ => false
  end.

(** ** [utils/bkt_algorithm.py] *)

Module BKT.
Import Py.

Record BKTParameters := mkBKTParameters {
  p_init : float;
  p_learn : float;
  p_guess : float;
  p_slip : float;
  p_forget : float
}.

(** [BKTParameters()]: the dataclass defaults. *)
Definition BKTParameters_default : BKTParameters :=
  mkBKTParameters 0.3 0.2 0.3 0.1 0.05.

(** One entry of [answer_history].  Entries written by [record_answer] carry
    every key; entries loaded from the state file are read with [.get] and a
    default, so [is_correct] and [previous_mastery] may be absent. *)
Record AnswerRecord := mkAnswerRecord {
  ar_question : Question;
  ar_is_correct : option bool;
  ar_timestamp : string;
  ar_difficulty : Difficulty;
  ar_previous_mastery : option float
}.

Record StudentState := mkStudentState {
  student_id : string;
  knowledge_point : string;
  mastery_prob : float;
  answer_history : list AnswerRecord;
  recent_performance : list bool;
  params : BKTParameters;
  created_at : string;
  updated_at : string
}.

(** The tracker object: [default_params] and the two-level dictionary
    [student_states[student_id][knowledge_point]].  The inner dictionary is
    iterated by [_get_personalized_params], so it keeps its insertion order.
    [_save_states] writes the file and swallows every I/O error: it leaves the
    object unchanged and is not modelled. *)
Record BayesianKnowledgeTracing := mkBKT {
  default_params : BKTParameters;
  student_states : gmap string (dict StudentState)
}.

Definition lookup_state (self : BayesianKnowledgeTracing)
    (sid kp : string) : option StudentState :=
  kps ← student_states self !! sid; dict_get kps kp.

Definition store_state (self : BayesianKnowledgeTracing)
    (sid kp : string) (state : StudentState) : BayesianKnowledgeTracing :=
  mkBKT (default_params self)
    (<[sid := dict_set (default [] (student_states self !! sid)) kp state]>
       (student_states self)).

(** [_calculate_learning_speed_from_history] *)
Fixpoint mastery_changes (prev : AnswerRecord) (rest : list AnswerRecord)
    : list float :=
  match rest with
  | [] => []
  | curr :: rest' =>
      let prev_mastery := default 0.3%float (ar_previous_mastery prev) in
      let curr_mastery := default 0.3%float (ar_previous_mastery curr) in
      (curr_mastery - prev_mastery)%float :: mastery_changes curr rest'
  end.

Definition _calculate_learning_speed_from_history
    (history : list AnswerRecord) : float :=
  if (length history <? 3)%nat then 0.0%float
  else
    let changes :=
      match history with
      | [] => []
      | h :: rest => mastery_changes h rest
      end in
    match changes with
    | [] => 0.0%float
    | _ => (sum changes / float_of_nat (length changes))%float
    end.

(** [_get_personalized_params] *)
Definition all_history (kps : dict StudentState) : list AnswerRecord :=
  concat (answer_history <$> dict_values kps).

Definition accuracy_of (history : list AnswerRecord) : float :=
  let total := length history in
  let correct :=
    length (filter (λ r, default false (ar_is_correct r) = true) history) in
  truediv correct total.

Definition personalized_p_init (accuracy : float) : float :=
  if (0.8 <? accuracy)%float then 0.5%float
  else if (0.6 <? accuracy)%float then 0.4%float
  else 0.2%float.

Definition personalized_p_learn (learning_speed : float) : float :=
  if (0.1 <? learning_speed)%float then 0.3%float
  else if (0.05 <? learning_speed)%float then 0.2%float
  else 0.15%float.

Definition _get_personalized_params (self : BayesianKnowledgeTracing)
    (sid : string) : BKTParameters :=
  match student_states self !! sid with
  | None => default_params self
  | Some kps =>
      let history := all_history kps in
      if (length history <? 10)%nat then default_params self
      else
        let accuracy := accuracy_of history in
        let learning_speed := _calculate_learning_speed_from_history history in
        let params := BKTParameters_default in
        let params :=
          mkBKTParameters (personalized_p_init accuracy) (p_learn params)
            (p_guess params) (p_slip params) (p_forget params) in
        mkBKTParameters (p_init params) (personalized_p_learn learning_speed)
          (p_guess params) (p_slip params) (p_forget params)
  end.

(** [initialize_student]; [now] is the clock reading
    [datetime.now().isoformat()]. *)
Definition initialize_student (self : BayesianKnowledgeTracing)
    (sid kp : string) (params : option BKTParameters) (now : string)
    : BayesianKnowledgeTracing * StudentState :=
  let params :=
    match params with
    | None => _get_personalized_params self sid
    | Some p => p
    end in
  let state := mkStudentState sid kp (p_init params) [] [] params now now in
  (store_state self sid kp state, state).

(** [get_student_state] *)
Definition get_student_state (self : BayesianKnowledgeTracing)
    (sid kp : string) (now : string)
    : BayesianKnowledgeTracing * StudentState :=
  match lookup_state self sid kp with
  | None => initialize_student self sid kp None now
  | Some state => (self, state)
  end.

(** [update_mastery_probability]: the state after the in-place update, and the
    returned probability. *)
Definition update_mastery_probability (state : StudentState)
    (is_correct : bool) (now : string) : StudentState * float :=
  let p_mastery := mastery_prob state in
  let p_learn := p_learn (params state) in
  let p_forget := p_forget (params state) in
  let p_guess := p_guess (params state) in
  let p_slip := p_slip (params state) in
  let p_mastery_updated :=
    if is_correct then
      let numerator := (p_mastery * (1 - p_slip))%float in
      let denominator := (numerator + (1 - p_mastery) * p_guess)%float in
      let p_mastery_given_correct :=
        if (0 <? denominator)%float then (numerator / denominator)%float
        else p_mastery in
      (p_mastery_given_correct + (1 - p_mastery_given_correct) * p_learn)%float
    else
      let numerator := (p_mastery * p_slip)%float in
      let denominator := (numerator + (1 - p_mastery) * (1 - p_guess))%float in
      let p_mastery_given_incorrect :=
        if (0 <? denominator)%float then (numerator / denominator)%float
        else p_mastery in
      (p_mastery_given_incorrect * (1 - p_forget))%float in
  let p_mastery_updated := max 0.01 (min 0.99 p_mastery_updated) in
  (mkStudentState (student_id state) (knowledge_point state) p_mastery_updated
     (answer_history state) (recent_performance state) (params state)
     (created_at state) now,
   p_mastery_updated).

(** [_calculate_recent_accuracy] *)
Definition _calculate_recent_accuracy (state : StudentState) : float :=
  match recent_performance state with
  | [] => 0.0%float
  | _ => truediv (sum_bool (recent_performance state))
           (length (recent_performance state))
  end.

(** The bucket of a combined score, as the chain of comparisons in
    [get_recommended_difficulty] decides it. *)
Definition difficulty_of_score (combined_score : float) : string :=
  if (combined_score <? 0.3)%float then EASY
  else if (combined_score <? 0.7)%float then MEDIUM
  else HARD.

Definition combined_score (state : StudentState) : float :=
  (0.7 * mastery_prob state + 0.3 * _calculate_recent_accuracy state)%float.

(** [get_recommended_difficulty] *)
Definition get_recommended_difficulty (self : BayesianKnowledgeTracing)
    (sid kp : string) (now : string) : BayesianKnowledgeTracing * string :=
  let '(self, state) := get_student_state self sid kp now in
  (self, difficulty_of_score (combined_score state)).

(** The update of [recent_performance] in [record_answer]: append, then one
    [pop(0)] when the length exceeds 10. *)
Definition push_recent (recent : list bool) (is_correct : bool) : list bool :=
  let recent := recent ++ [is_correct] in
  if (10 <? length recent)%nat then drop 1 recent else recent.

(** The dictionary returned by [record_answer]. *)
Record AnswerResult := mkAnswerResult {
  r_student_id : string;
  r_knowledge_point : string;
  r_current_mastery : float;
  r_previous_mastery : float;
  r_mastery_change : float;
  r_answer_record : AnswerRecord;
  r_total_answers : nat;
  r_recent_accuracy : float;
  r_recommended_difficulty : string
}.

(** [record_answer].  The state object is mutated in place; the dictionary
    entry is the same object, so the updated state is written back under its
    key. *)
Definition record_answer (self : BayesianKnowledgeTracing) (sid kp : string)
    (question : Question) (is_correct : bool) (now : string)
    : BayesianKnowledgeTracing * AnswerResult :=
  let '(self, state) := get_student_state self sid kp now in
  let previous_mastery := mastery_prob state in
  let answer_record :=
    mkAnswerRecord question (Some is_correct) now
      (default (DLabel MEDIUM) (q_difficulty question)) (Some previous_mastery) in
  let '(state, new_mastery) :=
    update_mastery_probability state is_correct now in
  let state :=
    mkStudentState (student_id state) (knowledge_point state)
      (mastery_prob state)
      (answer_history state ++ [answer_record])
      (push_recent (recent_performance state) is_correct)
      (params state) (created_at state) (updated_at state) in
  let self := store_state self sid kp state in
  let '(self', recommended) := get_recommended_difficulty self sid kp now in
  (self',
   mkAnswerResult sid kp new_mastery previous_mastery
     (new_mastery - previous_mastery)%float
     answer_record (length (answer_history state))
     (_calculate_recent_accuracy state) recommended).

(** The state object as [record_answer] leaves it: the three in-place updates
    applied to the state [get_student_state] returned. *)
Definition answered (state : StudentState) (question : Question)
    (is_correct : bool) (now : string) : StudentState :=
  let updated := (update_mastery_probability state is_correct now).1 in
  mkStudentState (student_id updated) (knowledge_point updated)
    (mastery_prob updated)
    (answer_history updated ++
       [mkAnswerRecord question (Some is_correct) now
          (default (DLabel MEDIUM) (q_difficulty question))
          (Some (mastery_prob state))])
    (push_recent (recent_performance updated) is_correct)
    (params updated) (created_at updated) (updated_at updated).

(** A call of [record_answer] and a sequence of calls on one tracker. *)
Record Call := mkCall {
  c_student : string;
  c_topic : string;
  c_question : Question;
  c_correct : bool;
  c_now : string
}.

Definition do_call (self : BayesianKnowledgeTracing) (c : Call)
    : BayesianKnowledgeTracing * AnswerResult :=
  record_answer self (c_student c) (c_topic c) (c_question c) (c_correct c)
    (c_now c).

Definition run_calls (self : BayesianKnowledgeTracing) (cs : list Call)
    : BayesianKnowledgeTracing :=
  fold_left (λ s c, (do_call s c).1) cs self.

(** The update rule in the words of the specification: the Bayesian posterior
    of each observation, the learning and forgetting transitions, and the
    clamp. *)
Definition spec_posterior_correct (p slip guess : float) : float :=
  let d := (p * (1 - slip) + (1 - p) * guess)%float in
  if (0 <? d)%float then (p * (1 - slip) / d)%float else p.

Definition spec_posterior_incorrect (p slip guess : float) : float :=
  let d := (p * slip + (1 - p) * (1 - guess))%float in
  if (0 <? d)%float then (p * slip / d)%float else p.

Definition spec_clamp (x : float) : float :=
  if (x <? 0.99)%float then (if (0.01 <? x)%float then x else 0.01%float)
  else 0.99%float.

Definition spec_update (p : float) (ps : BKTParameters) (is_correct : bool)
    : float :=
  if is_correct then
    let p' := spec_posterior_correct p (p_slip ps) (p_guess ps) in
    spec_clamp (p' + (1 - p') * p_learn ps)%float
  else
    let p' := spec_posterior_incorrect p (p_slip ps) (p_guess ps) in
    spec_clamp (p' * (1 - p_forget ps))%float.

(** The same rule on exact rationals, without rounding. *)
Definition exact_update (p learn guess slip forget : Q) (is_correct : bool)
    : Q :=
  if is_correct then
    let p' := (p * (1 - slip) / (p * (1 - slip) + (1 - p) * guess))%Q in
    (p' + (1 - p') * learn)%Q
  else
    let p' := (p * slip / (p * slip + (1 - p) * (1 - guess)))%Q in
    (p' * (1 - forget))%Q.

(** The correct-then-incorrect scenario: a fresh tracker with the default
    parameters, a first state for one student and topic, one correct answer,
    then one incorrect answer. *)
Definition scenario_start : StudentState :=
  (initialize_student (mkBKT BKTParameters_default ∅) "student_001" "代数"
     None "t0").2.
Definition scenario_correct : StudentState :=
  (update_mastery_probability scenario_start true "t1").1.
Definition scenario_incorrect : StudentState :=
  (update_mastery_probability scenario_correct false "t2").1.

Definition exact_correct : Q :=
  exact_update 0.3 0.2 0.3 0.1 0.05 true.
Definition exact_incorrect : Q :=
  exact_update exact_correct 0.2 0.3 0.1 0.05 false.

(** The last [n] entries of a list, in order. *)
Definition last_n {A} (n : nat) (l : list A) : list A :=
  drop (length l - n) l.

(** [recent_performance] of the state stored under a key ([[]] when there is
    none), and the outcomes of the calls of a sequence that go to that key. *)
Definition recent_of (self : BayesianKnowledgeTracing) (sid kp : string)
    : list bool :=
  from_option recent_performance [] (lookup_state self sid kp).

Definition outcomes_for (sid kp : string) (cs : list Call) : list bool :=
  c_correct <$> filter (λ c, c_student c = sid ∧ c_topic c = kp) cs.


(** The answer records of a learner across all topics, in the order
    [_get_personalized_params] collects them ([[]] for an unknown learner). *)
Definition learner_history (self : BayesianKnowledgeTracing) (sid : string)
    : list AnswerRecord :=
  from_option all_history [] (student_states self !! sid).

End BKT.

(** ** [system_core.py] *)

Module Core.
Import Py BKT.

(** The target difficulty and the ordered fallback difficulties for a mastery
    value, as the [if]/[elif]/[else] chain of [_select_adaptive_question]
    assigns them. *)
Definition target_difficulty (current_mastery : float) : string :=
  if (current_mastery <? 0.3)%float then EASY
  else if (current_mastery <? 0.7)%float then MEDIUM
  else HARD.

Definition fallback_difficulties (current_mastery : float) : list string :=
  if (current_mastery <? 0.3)%float then [MEDIUM]
  else if (current_mastery <? 0.7)%float then [EASY; HARD]
  else [MEDIUM].

(** [[q for q in available_questions if q.get('题号') not in used_questions]] *)
Definition unused_questions (available_questions : list Question)
    (used_questions : gset (option Z)) : list Question :=
  filter (λ q, q_id q ∉ used_questions) available_questions.

(** [[q for q in candidates if q.get('难度') == difficulty]] *)
Definition with_difficulty (difficulty : string) (candidates : list Question)
    : list Question :=
  filter (λ q, difficulty_is difficulty q = true) candidates.

(** The [for fallback_diff in fallback_difficulties] loop: the choice from
    the first non-empty bucket, or [None] when the loop falls through. *)
Fixpoint try_fallbacks (r : nat) (candidates : list Question)
    (fallbacks : list string) : option (result Question) :=
  match fallbacks with
  | [] => None
  | fallback_diff :: rest =>
      match with_difficulty fallback_diff candidates with
      | [] => try_fallbacks r candidates rest
      | fallback_candidates => Some (random_choice r fallback_candidates)
      end
  end.

(** [_select_adaptive_question]; [r] is the draw of the random generator. *)
Definition _select_adaptive_question (sid kp : string)
    (current_mastery : float) (available_questions : list Question)
    (used_questions : gset (option Z)) (r : nat)
    : result (option Question) :=
  let candidates := unused_questions available_questions used_questions in
  match candidates with
  | [] => Ok None
  | _ =>
      let target := target_difficulty current_mastery in
      let fallbacks := fallback_difficulties current_mastery in
      match with_difficulty target candidates with
      | [] =>
          match try_fallbacks r candidates fallbacks with
          | Some choice => bind choice (λ selected, Ok (Some selected))
          | None =>
              bind (random_choice r candidates)
                (λ selected, Ok (Some selected))
          end
      | target_candidates =>
          bind (random_choice r target_candidates)
            (λ selected, Ok (Some selected))
      end
  end.

(** The policy in the words of the specification: the list the selector
    draws from is the first non-empty bucket among the target difficulty and
    its fallbacks, in order, and all unused questions when every one of these
    buckets is empty. *)
Fixpoint first_nonempty_bucket (candidates : list Question)
    (difficulties : list string) : option (list Question) :=
  match difficulties with
  | [] => None
  | d :: rest =>
      match with_difficulty d candidates with
      | [] => first_nonempty_bucket candidates rest
      | bucket => Some bucket
      end
  end.

Definition selection_pool (current_mastery : float)
    (candidates : list Question) : list Question :=
  default candidates
    (first_nonempty_bucket candidates
       (target_difficulty current_mastery
        :: fallback_difficulties current_mastery)).

(** An entry of [answer_records] and the value of [last_result].  The entry
    written after a failure carries no mastery keys. *)
Record SessionRecord := mkSessionRecord {
  sr_question : Question;
  sr_student_answer : string;
  sr_is_correct : bool;
  sr_check_reason : string;
  sr_mastery_before : option float;
  sr_mastery_after : option float;
  sr_mastery_change : option float
}.

(** The session dictionary built by [start_assessment]. *)
Record Session := mkSession {
  s_knowledge_point : string;
  s_student_id : string;
  s_total_questions : nat;
  s_current_index : nat;
  s_current_question : Question;
  s_questions : list Question;
  s_answer_records : list SessionRecord;
  s_last_result : option SessionRecord;
  s_used_question_ids : gset (option Z);
  s_all_available_questions : list Question;
  s_current_mastery : float;
  s_initial_mastery : float
}.

Definition set_last_result (session : Session) (r : SessionRecord)
    : Session :=
  mkSession (s_knowledge_point session) (s_student_id session)
    (s_total_questions session) (s_current_index session)
    (s_current_question session) (s_questions session)
    (s_answer_records session) (Some r) (s_used_question_ids session)
    (s_all_available_questions session) (s_current_mastery session)
    (s_initial_mastery session).

(** The [except Exception as e] branch of [submit_answer]. *)
Definition failed (session : Session) (student_answer : string)
    (msg : string) : Session :=
  set_last_result session
    (mkSessionRecord (s_current_question session) student_answer false
       ("处理失败: " +:+ msg) None None None).

(** [start_assessment].  [all_available_questions] is what the question
    store returns for the topic; every exception ends in [return None]. *)
Definition start_assessment (bkt : BayesianKnowledgeTracing)
    (all_available_questions : list Question) (kp sid : string)
    (num_questions : nat) (now : string) (r : nat)
    : BayesianKnowledgeTracing * option Session :=
  match all_available_questions with
  | [] => (bkt, None)
  | _ =>
      let num_questions :=
        if (length all_available_questions <? num_questions)%nat
        then length all_available_questions else num_questions in
      let '(bkt, state) := get_student_state bkt sid kp now in
      let current_mastery := mastery_prob state in
      match _select_adaptive_question sid kp current_mastery
              all_available_questions ∅ r with
      | Ok (Some first_question) =>
          (bkt,
           Some (mkSession kp sid num_questions 1 first_question
                   [first_question] [] None {[ q_id first_question ]}
                   all_available_questions current_mastery current_mastery))
      | _ => (bkt, None)
      end
  end.

(** [submit_answer].  [check_answer] is the evaluator's method with the
    prompt applied; it returns the verdict and its reason or raises, and does
    not touch the tracker.  The tracker and the session are mutated in place,
    so the [except] branch sees what was done before the exception. *)
Definition submit_answer (bkt : BayesianKnowledgeTracing)
    (check_answer : Question → string → result (bool * string))
    (session : Session) (student_answer : string) (now : string) (r : nat)
    : BayesianKnowledgeTracing * Session :=
  let question := s_current_question session in
  match check_answer question student_answer with
  | Raise _ msg => (bkt, failed session student_answer msg)
  | Ok (is_correct, reason) =>
      let '(bkt, bkt_result) :=
        record_answer bkt (s_student_id session) (s_knowledge_point session)
          question is_correct now in
      let new_mastery := r_current_mastery bkt_result in
      let mastery_change := r_mastery_change bkt_result in
      let record :=
        mkSessionRecord question student_answer is_correct reason
          (Some (r_previous_mastery bkt_result)) (Some new_mastery)
          (Some mastery_change) in
      let session :=
        mkSession (s_knowledge_point session) (s_student_id session)
          (s_total_questions session) (s_current_index session)
          (s_current_question session) (s_questions session)
          (s_answer_records session ++ [record]) (Some record)
          (s_used_question_ids session) (s_all_available_questions session)
          new_mastery (s_initial_mastery session) in
      if (s_current_index session <? s_total_questions session)%nat then
        match _select_adaptive_question (s_student_id session)
                (s_knowledge_point session) new_mastery
                (s_all_available_questions session)
                (s_used_question_ids session) r with
        | Raise _ msg => (bkt, failed session student_answer msg)
        | Ok (Some next_question) =>
            (bkt,
             mkSession (s_knowledge_point session) (s_student_id session)
               (s_total_questions session) (s_current_index session)
               (s_current_question session)
               (s_questions session ++ [next_question])
               (s_answer_records session) (s_last_result session)
               ({[ q_id next_question ]} ∪ s_used_question_ids session)
               (s_all_available_questions session)
               (s_current_mastery session) (s_initial_mastery session))
        | Ok None =>
            (bkt,
             mkSession (s_knowledge_point session) (s_student_id session)
               (s_current_index session) (s_current_index session)
               (s_current_question session) (s_questions session)
               (s_answer_records session) (s_last_result session)
               (s_used_question_ids session)
               (s_all_available_questions session)
               (s_current_mastery session) (s_initial_mastery session))
        end
      else (bkt, session)
  end.

(** [next_question] *)
Definition next_question (session : Session) : Session :=
  let current_index := S (s_current_index session) in
  let current_question :=
    if (current_index <=? length (s_questions session))%nat
    then default (s_current_question session)
           (s_questions session !! (current_index - 1)%nat)
    else s_current_question session in
  mkSession (s_knowledge_point session) (s_student_id session)
    (s_total_questions session) current_index current_question
    (s_questions session) (s_answer_records session) (s_last_result session)
    (s_used_question_ids session) (s_all_available_questions session)
    (s_current_mastery session) (s_initial_mastery session).

End Core.

(** ** [networkx.DiGraph], as the builder and the scorer use it *)

Module DiGraph.
Import Py.

(** The values the builder stores in node and edge attribute dictionaries. *)
Inductive AttrValue : Type :=
| AStr (s : string)
| ADifficulty (d : Difficulty)
| AQuestion (q : Question).

(** A directed graph: the attribute dictionary of each node, and the
    attribute dictionary of each edge [(u, v)]. *)
Record DiGraph := mkDiGraph {
  nodes : gmap string (gmap string AttrValue);
  edges : gmap (string * string) (gmap string AttrValue)
}.

Definition empty : DiGraph := mkDiGraph ∅ ∅.

Definition has_node (g : DiGraph) (n : string) : bool :=
  bool_decide (is_Some (nodes g !! n)).

Definition has_edge (g : DiGraph) (u v : string) : bool :=
  bool_decide (is_Some (edges g !! (u, v))).

(** [G.add_node(n, **attr)]: a new node gets [attr]; the dictionary of an
    existing node is updated with [attr]. *)
Definition add_node (g : DiGraph) (n : string) (attr : gmap string AttrValue)
    : DiGraph :=
  mkDiGraph (<[n := attr ∪ default ∅ (nodes g !! n)]> (nodes g)) (edges g).

(** [G.add_edge(u, v, **attr)]: both end points become nodes (with no
    attribute) when they are not, and the dictionary of the edge is created or
    updated with [attr]. *)
Definition touch_node (ns : gmap string (gmap string AttrValue)) (n : string)
    : gmap string (gmap string AttrValue) :=
  match ns !! n with
  | Some _ => ns
  | None => <[n := ∅]> ns
  end.

Definition add_edge (g : DiGraph) (u v : string)
    (attr : gmap string AttrValue) : DiGraph :=
  mkDiGraph (touch_node (touch_node (nodes g) u) v)
    (<[(u, v) := attr ∪ default ∅ (edges g !! (u, v))]> (edges g)).

(** [G.nodes[n].get(key)] and [G[u][v].get(key)] *)
Definition node_attr (g : DiGraph) (n key : string) : option AttrValue :=
  nodes g !! n ≫= (.!! key).

Definition edge_attr (g : DiGraph) (u v key : string) : option AttrValue :=
  edges g !! (u, v) ≫= (.!! key).

(** [value == s] for an attribute value read with [.get]. *)
Definition attr_is (value : option AttrValue) (s : string) : bool :=
  match value with
  | Some (AStr s') => bool_decide (s' = s)
  | _ => false
  end.

(** [G.successors(u)] (also [G.neighbors(u)]) *)
Definition successors (g : DiGraph) (u : string) : list string :=
  (filter (λ e, e.1 = u) (map_to_list (edges g)).*1).*2.

(** Breadth-first search by levels: the next frontier holds the successors of
    the current one; the search stops at the first level that contains the
    target, and no later than after as many levels as the graph has nodes. *)
Definition expand (g : DiGraph) (frontier : list string) : list string :=
  remove_dups (frontier ≫= successors g).

Fixpoint bfs (g : DiGraph) (target : string) (fuel depth : nat)
    (frontier : list string) : option nat :=
  match fuel with
  | 0 => None
  | S fuel' =>
      if bool_decide (target ∈ frontier) then Some depth
      else bfs g target fuel' (S depth) (expand g frontier)
  end.

(** The frontier after [k] expansions. *)
Fixpoint level (g : DiGraph) (k : nat) (frontier : list string)
    : list string :=
  match k with
  | 0 => frontier
  | S k' => level g k' (expand g frontier)
  end.

Definition distance (g : DiGraph) (source target : string) : option nat :=
  bfs g target (size (nodes g)) 0 [source].

(** [nx.shortest_path_length(G, source, target)]: the number of edges of a
    shortest directed path; [NodeNotFound] when an end point is not a node,
    [NetworkXNoPath] when there is no path. *)
Definition shortest_path_length (g : DiGraph) (source target : string)
    : result nat :=
  if has_node g source && has_node g target then
    match distance g source target with
    | Some d => Ok d
    | None =>
        Raise "NetworkXNoPath"
          ("No path between " +:+ source +:+ " and " +:+ target +:+ ".")
    end
  else
    Raise "NodeNotFound"
      ("Either source " +:+ source +:+ " or target " +:+ target
       +:+ " is not in G").

(** [nx.has_path(G, source, target)]: it catches [NetworkXNoPath] only. *)
Definition has_path (g : DiGraph) (source target : string) : result bool :=
  match shortest_path_length g source target with
  | Ok _ => Ok true
  | Raise cls msg =>
      if decide (cls = "NetworkXNoPath") then Ok false else Raise cls msg
  end.

(** What the library functions compute, stated on the graph: [is_path g u l v]
    when the vertices [l] lead from [u] to [v] along edges; the number of
    edges of the path is the length of [l]. *)
Fixpoint is_path (g : DiGraph) (u : string) (l : list string) (v : string)
    : Prop :=
  match l with
  | [] => u = v
  | w :: l' => is_Some (edges g !! (u, w)) ∧ is_path g w l' v
  end.

(** [d] is the length of a shortest directed path from [u] to [v]. *)
Definition shortest (g : DiGraph) (u v : string) (d : nat) : Prop :=
  (∃ l, length l = d ∧ is_path g u l v)
  ∧ ∀ l, is_path g u l v → d ≤ length l.

(** Every graph made by [add_node] and [add_edge] has the end points of its
    edges among its nodes. *)
Definition closed (g : DiGraph) : Prop :=
  ∀ u v, is_Some (edges g !! (u, v)) →
         is_Some (nodes g !! u) ∧ is_Some (nodes g !! v).

End DiGraph.

(** ** [knowledge_management/kg_builder.py] *)

Module KGBuilder.
Import Py DiGraph.

(** The dictionary the relation extractor returns. *)
Record Relations := mkRelations {
  concepts : list string;
  prerequisites : list string;
  next_topics : list string;
  methods : list string
}.

(** [q.get('知识点大类', q.get('knowledge_point_major', '未知'))], the same for
    the minor topic, [q.get('难度', 0.5)], and [f"{q_id}"]. *)
Definition major_of (q : Question) : string :=
  default (default "未知" (q_major_en q)) (q_major q).
Definition minor_of (q : Question) : string :=
  default (default "未知" (q_minor_en q)) (q_minor q).
Definition difficulty_of (q : Question) : Difficulty :=
  default (DNumber 0.5) (q_difficulty q).
Definition format_id (q : Question) : string :=
  match q_id q with
  | Some n => pretty n
  | None => "None"
  end.

(** Node identifiers. *)
Definition question_node (q : Question) : string := "Q" +:+ format_id q.
Definition major_node (major : string) : string := "KP_Major:" +:+ major.
Definition minor_node (kp_key : string) : string := "KP_Minor:" +:+ kp_key.
Definition concept_node (concept : string) : string := "Concept:" +:+ concept.
Definition method_node (method : string) : string := "Method:" +:+ method.

(** [f"{major}/{minor}"] *)
Definition kp_key_of (q : Question) : string :=
  major_of q +:+ "/" +:+ minor_of q.

(** The body of the loop of [_add_basic_nodes]. *)
Definition add_basic_node (g : DiGraph) (q : Question) : DiGraph :=
  let major := major_of q in
  let minor := minor_of q in
  let difficulty := difficulty_of q in
  let g :=
    add_node g (question_node q)
      {[ "type" := AStr "question"; "data" := AQuestion q;
         "major_point" := AStr major; "minor_point" := AStr minor;
         "difficulty" := ADifficulty difficulty ]} in
  let major_node := major_node major in
  let minor_node := minor_node (kp_key_of q) in
  let g :=
    if has_node g major_node then g
    else add_node g major_node
           {[ "type" := AStr "major_point"; "name" := AStr major ]} in
  let g :=
    if has_node g minor_node then g
    else add_node g minor_node
           {[ "type" := AStr "minor_point"; "major" := AStr major;
              "minor" := AStr minor; "name" := AStr (kp_key_of q) ]} in
  let g := add_edge g minor_node major_node
             {[ "relation" := AStr "belongs_to" ]} in
  add_edge g (question_node q) minor_node
    {[ "relation" := AStr "tests"; "difficulty" := ADifficulty difficulty ]}.

Definition _add_basic_nodes (g : DiGraph) (questions : list Question)
    : DiGraph :=
  fold_left add_basic_node questions g.

(** [_add_relations_to_graph]: the four loops, in order. *)
Definition add_concept (minor_node : string) (g : DiGraph) (concept : string)
    : DiGraph :=
  let concept_node := concept_node concept in
  let g :=
    if has_node g concept_node then g
    else add_node g concept_node
           {[ "type" := AStr "concept"; "name" := AStr concept ]} in
  add_edge g minor_node concept_node {[ "relation" := AStr "involves" ]}.

Definition add_prerequisite (minor_node : string) (g : DiGraph)
    (prereq : string) : DiGraph :=
  let prereq_node := KGBuilder.minor_node prereq in
  if has_node g prereq_node then
    add_edge g prereq_node minor_node {[ "relation" := AStr "prerequisite" ]}
  else g.

Definition add_next_topic (minor_node : string) (g : DiGraph)
    (next_topic : string) : DiGraph :=
  let next_node := KGBuilder.minor_node next_topic in
  if has_node g next_node then
    add_edge g minor_node next_node {[ "relation" := AStr "leads_to" ]}
  else g.

Definition add_method (minor_node : string) (g : DiGraph) (method : string)
    : DiGraph :=
  let method_node := method_node method in
  let g :=
    if has_node g method_node then g
    else add_node g method_node
           {[ "type" := AStr "method"; "name" := AStr method ]} in
  add_edge g minor_node method_node {[ "relation" := AStr "uses" ]}.

Definition _add_relations_to_graph (g : DiGraph) (kp_key : string)
    (relations : Relations) : DiGraph :=
  let minor_node := minor_node kp_key in
  let g := fold_left (add_concept minor_node) (concepts relations) g in
  let g := fold_left (add_prerequisite minor_node) (prerequisites relations) g in
  let g := fold_left (add_next_topic minor_node) (next_topics relations) g in
  fold_left (add_method minor_node) (methods relations) g.

(** The grouping of [_extract_relations_with_llm]: questions by
    [f"{major}/{minor}"], groups in the order of their first question. *)
Definition group_questions (questions : list Question)
    : dict (list Question) :=
  fold_left
    (λ kp_groups q,
       let key := kp_key_of q in
       dict_set kp_groups key (default [] (dict_get kp_groups key) ++ [q]))
    questions [].

(** [_extract_relations_with_llm].  [llm kp_key sample] is the dictionary
    that [_call_llm_for_relations] returns for the topic and its sample of at
    most three questions: the model's answer after parsing, or four empty
    lists after a failure.  The answer is not trusted: it is any value. *)
Definition _extract_relations_with_llm
    (llm : string → list Question → Relations) (g : DiGraph)
    (questions : list Question) : DiGraph :=
  fold_left
    (λ g group,
       let '(kp_key, kp_questions) := group in
       let sample_questions := take 3 kp_questions in
       _add_relations_to_graph g kp_key (llm kp_key sample_questions))
    (group_questions questions) g.

(** [build_from_questions] on a builder whose graph is [g]; [cache] is the
    graph in the cache file, when there is one. *)
Definition build_from_questions
    (llm : string → list Question → Relations) (g : DiGraph)
    (cache : option DiGraph) (questions : list Question)
    (force_rebuild : bool) : DiGraph :=
  match force_rebuild, cache with
  | false, Some cached => cached
  | _, _ =>
      let g := _add_basic_nodes g questions in
      _extract_relations_with_llm llm g questions
  end.

(** A corpus of two questions on two topics, and an extractor that names, for
    the first topic, the second as prerequisite and as next topic, and a
    topic without questions as prerequisite. *)
Definition corpus_equations : Question :=
  mkQuestion (Some 1%Z) (Some (DLabel EASY)) (Some "代数") None (Some "方程")
    None "x+1=2" "x=1" "".
Definition corpus_inequalities : Question :=
  mkQuestion (Some 2%Z) (Some (DLabel HARD)) (Some "代数") None
    (Some "不等式") None "x+1>2" "x>1" "".
Definition corpus_llm (kp_key : string) (sample : list Question)
    : Relations :=
  if decide (kp_key = "代数/方程") then
    mkRelations ["等式"] ["代数/不等式"; "几何/三角"] ["代数/不等式"] ["移项"]
  else mkRelations [] [] [] [].
Definition corpus_graph : DiGraph :=
  build_from_questions corpus_llm DiGraph.empty None
    [corpus_equations; corpus_inequalities] false.

(** The relation an edge carries, the two relations between topics, and the
    minor-topic nodes that stand for the topic of a question of the corpus. *)
Definition relation_is (g : DiGraph) (u v relation : string) : Prop :=
  edge_attr g u v "relation" = Some (AStr relation).

Definition topic_edge (g : DiGraph) (u v : string) : Prop :=
  relation_is g u v "prerequisite" ∨ relation_is g u v "leads_to".

Definition topic_of (questions : list Question) (n : string) : Prop :=
  ∃ q, q ∈ questions ∧ n = minor_node (kp_key_of q).

Definition minor_point (g : DiGraph) (n : string) : Prop :=
  is_Some (nodes g !! n)
  ∧ node_attr g n "type" = Some (AStr "minor_point").

(** The invariant of a build over the corpus [questions]: the end points of
    edges are nodes; every node named [KP_Minor:...] is the minor-topic node
    of a question; prerequisite and leads_to edges join nodes with such
    names. *)
Definition kg_inv (questions : list Question) (g : DiGraph) : Prop :=
  closed g
  ∧ (∀ x, is_Some (nodes g !! minor_node x) →
          topic_of questions (minor_node x) ∧ minor_point g (minor_node x))
  ∧ (∀ u v, topic_edge g u v → ∃ x y, u = minor_node x ∧ v = minor_node y).

(** [g'] keeps the nodes of [g], and the nodes it adds have no minor-topic
    name. *)
Definition extends (g g' : DiGraph) : Prop :=
  (∀ n, is_Some (nodes g !! n) → is_Some (nodes g' !! n))
  ∧ (∀ n, is_Some (nodes g' !! n) →
          is_Some (nodes g !! n) ∨ ∀ x, n ≠ minor_node x).

(** What a step of the relation loops keeps. *)
Definition preserves (questions : list Question) (g g' : DiGraph) : Prop :=
  extends g g'
  ∧ (closed g → closed g')
  ∧ (kg_inv questions g → kg_inv questions g').

End KGBuilder.

(** ** [knowledge_management/rag_engine.py] *)

Module RAG.
Import Py DiGraph.

(** [_get_target_difficulty] *)
Definition _get_target_difficulty (student_mastery : float) : float :=
  if (student_mastery <? 0.3)%float then 0.25%float
  else if (student_mastery <? 0.7)%float then 0.50%float
  else 0.75%float.

(** [_calculate_relevance]; the bare [except] turns every exception into
    0.5. *)
Definition _calculate_relevance (g : DiGraph) (q_node target_kp : string)
    : float :=
  match has_path g q_node target_kp with
  | Ok true =>
      match shortest_path_length g q_node target_kp with
      | Ok path_length => (1.0 / float_of_nat (path_length + 1))%float
      | Raise _ _ => 0.5%float
      end
  | Ok false => 0.5%float
  | Raise _ _ => 0.5%float
  end.

(** [_calculate_path_fitness]; [G.neighbors(n)] raises when [n] is not a
    node. *)
Definition _calculate_path_fitness (g : DiGraph) (q_node : string)
    : result float :=
  if has_node g q_node then
    let concept_count :=
      length (filter (λ neighbor,
                        attr_is (node_attr g neighbor "type") "concept" = true)
                (successors g q_node)) in
    Ok (if (2 <=? concept_count)%nat && (concept_count <=? 4)%nat
        then 1.0%float
        else if (concept_count =? 1)%nat || (concept_count =? 5)%nat
             then 0.7%float
             else 0.4%float)
  else
    Raise "NetworkXError" ("The node " +:+ q_node +:+ " is not in the digraph.").

(** [_calculate_question_score]; [diversity_score] is the value of
    [random.random()].  A difficulty that is a label makes the subtraction
    raise [TypeError]. *)
Definition _calculate_question_score (g : DiGraph) (q_node : string)
    (q_data : Question) (target_kp : string) (student_mastery : float)
    (diversity_score : float) : result float :=
  match default (DNumber 0.5) (q_difficulty q_data) with
  | DLabel _ =>
      Raise "TypeError" "unsupported operand type(s) for -: 'str' and 'float'"
  | DNumber q_difficulty =>
      let target_difficulty := _get_target_difficulty student_mastery in
      let difficulty_score :=
        (1.0 - abs (q_difficulty - target_difficulty))%float in
      let relevance_score := _calculate_relevance g q_node target_kp in
      bind (_calculate_path_fitness g q_node) (λ path_score,
        Ok (0.4 * difficulty_score + 0.3 * relevance_score
            + 0.2 * path_score + 0.1 * diversity_score)%float)
  end.

(** A corpus of one question, the graph a fresh builder makes of it when
    the extractor finds no relation, and the names of its three nodes:
    [Q1 -tests-> KP_Minor:代数/方程 -belongs_to-> KP_Major:代数]. *)
Definition example_question : Question :=
  mkQuestion (Some 1%Z) (Some (DNumber 0.25)) (Some "代数") None (Some "方程")
    None "x+1=2" "x=1" "".

Definition example_graph : DiGraph :=
  KGBuilder.build_from_questions (λ _ _, KGBuilder.mkRelations [] [] [] [])
    DiGraph.empty None [example_question] true.

Definition example_q_node : string := "Q1".
Definition example_minor : string := "KP_Minor:代数/方程".
Definition example_major : string := "KP_Major:代数".

(** A graph in which the only path between the question and the topic runs
    from the topic to the question, in two steps. *)
Definition reversed_graph : DiGraph :=
  add_edge (add_edge DiGraph.empty example_minor "Concept:等式" ∅)
    "Concept:等式" example_q_node ∅.

End RAG.

(** * Properties *)

(** ** Floating-point comparisons *)

Section float_order.
Local Open Scope float_scope.

Lemma SFcompare_antisym x y c :
  SFcompare x y = Some c → SFcompare y x = Some (CompOpp c).
Proof.
  destruct x as [sx|sx| |sx mx ex], y as [sy|sy| |sy my ey]; simpl;
    try discriminate; intros [= <-]; try (by destruct sx);
    try (by destruct sy); try (by destruct sx, sy).
  f_equal. destruct sx, sy; try done;
    rewrite (Z.compare_antisym ex ey); destruct (ex ?= ey)%Z; simpl;
    try done; [f_equal|]; change Eq with (CompOpp Eq) at 1; symmetry;
    apply Pos.compare_cont_antisym.
Qed.

Lemma SFcompare_Lt_trans x y z :
  SFcompare x y = Some Lt → SFcompare y z = Some Lt →
  SFcompare x z = Some Lt.
Proof.
  destruct x as [sx|sx| |sx mx ex], y as [sy|sy| |sy my ey],
    z as [sz|sz| |sz mz ez]; simpl; try discriminate;
    repeat match goal with s : bool |- _ => destruct s end;
    try discriminate; try done.
  all: change (PosDef.Pos.compare_cont Eq) with Pos.compare.
  all: destruct (Z.compare_spec ex ey), (Z.compare_spec ey ez),
         (Z.compare_spec ex ez); try discriminate; try done; try lia.
  all: destruct (Pos.compare_spec mx my), (Pos.compare_spec my mz),
         (Pos.compare_spec mx mz); simpl; try discriminate; try done; try lia.
Qed.

(** Comparisons of doubles, read on their specification. *)
Ltac float_compare :=
  rewrite ?FloatAxioms.ltb_spec, ?FloatAxioms.leb_spec; unfold SFltb, SFleb.

Lemma ltb_trans (a b c : float) :
  (a <? b) = true → (b <? c) = true → (a <? c) = true.
Proof.
  float_compare.
  destruct (SFcompare (Prim2SF a) (Prim2SF b)) as [[]|] eqn:E1; try done.
  destruct (SFcompare (Prim2SF b) (Prim2SF c)) as [[]|] eqn:E2; try done.
  by rewrite (SFcompare_Lt_trans _ _ _ E1 E2).
Qed.

Lemma ltb_leb (a b : float) : (a <? b) = true → (a <=? b) = true.
Proof. float_compare. by destruct (SFcompare _ _) as [[]|]. Qed.

Lemma leb_ltb_false (a b : float) : (a <=? b) = true → (b <? a) = false.
Proof.
  float_compare.
  destruct (SFcompare (Prim2SF a) (Prim2SF b)) as [c|] eqn:E; [|done].
  rewrite (SFcompare_antisym _ _ _ E). by destruct c.
Qed.

Lemma fle_not_flt (a b : float) : Py.fle a b → ¬ Py.flt b a.
Proof. unfold Py.fle, Py.flt. intros H%leb_ltb_false. congruence. Qed.

(** The clamp [max(0.01, min(0.99, x))] lands in [[0.01, 0.99]] for every
    double [x], NaN and the infinities included. *)
Lemma clamp_within (x : float) :
  Py.within 0.01 0.99 (Py.max 0.01 (Py.min 0.99 x)).
Proof.
  unfold Py.within, Py.fle, Py.max, Py.min.
  destruct (x <? 0.99) eqn:Hhi; [|by vm_compute].
  destruct (0.01 <? x) eqn:Hlo; [|by vm_compute].
  split; by apply ltb_leb.
Qed.

Lemma clamp_spec (x : float) :
  Py.max 0.01 (Py.min 0.99 x) = BKT.spec_clamp x.
Proof.
  unfold Py.max, Py.min, BKT.spec_clamp.
  by destruct (x <? 0.99).
Qed.

End float_order.

(** ** The mastery tracker *)

Section dict_facts.
Context {V : Type}.
Implicit Types (d : Py.dict V) (k : string) (v : V).

Lemma dict_get_set_eq d k v : Py.dict_get (Py.dict_set d k v) k = Some v.
Proof.
  induction d as [|[k' v'] d IH]; simpl.
  - by rewrite decide_True.
  - destruct (decide (k' = k)) as [->|Hne]; simpl.
    + by rewrite decide_True.
    + by rewrite decide_False.
Qed.

Lemma dict_get_set_ne d k k' v :
  k ≠ k' → Py.dict_get (Py.dict_set d k v) k' = Py.dict_get d k'.
Proof.
  intros Hne. induction d as [|[k0 v0] d IH]; simpl.
  - by rewrite decide_False.
  - destruct (decide (k0 = k)) as [->|Hne0]; simpl.
    + by rewrite !decide_False.
    + by rewrite IH.
Qed.

End dict_facts.

Section tracker.
Import Py BKT.
Implicit Types (self : BayesianKnowledgeTracing) (state : StudentState).

Lemma lookup_store_eq self sid kp state :
  lookup_state (store_state self sid kp state) sid kp = Some state.
Proof.
  unfold lookup_state, store_state; simpl.
  rewrite lookup_insert_eq; simpl. apply dict_get_set_eq.
Qed.

Lemma lookup_store_ne self sid kp sid' kp' state :
  (sid, kp) ≠ (sid', kp') →
  lookup_state (store_state self sid kp state) sid' kp' =
  lookup_state self sid' kp'.
Proof.
  intros Hne. unfold lookup_state, store_state; simpl.
  destruct (decide (sid = sid')) as [->|Hsid].
  - rewrite lookup_insert_eq; simpl.
    assert (kp ≠ kp') by congruence.
    rewrite dict_get_set_ne by done.
    by destruct (student_states self !! sid').
  - by rewrite lookup_insert_ne.
Qed.

Lemma get_student_state_lookup self sid kp now :
  lookup_state (get_student_state self sid kp now).1 sid kp =
  Some (get_student_state self sid kp now).2.
Proof.
  unfold get_student_state.
  destruct (lookup_state self sid kp) as [state|] eqn:E; simpl; [done|].
  apply lookup_store_eq.
Qed.

Lemma get_student_state_other self sid kp sid' kp' now :
  (sid, kp) ≠ (sid', kp') →
  lookup_state (get_student_state self sid kp now).1 sid' kp' =
  lookup_state self sid' kp'.
Proof.
  intros Hne. unfold get_student_state.
  destruct (lookup_state self sid kp); simpl; [done|].
  by apply lookup_store_ne.
Qed.

Lemma get_student_state_present self sid kp now state :
  lookup_state self sid kp = Some state →
  get_student_state self sid kp now = (self, state).
Proof. intros E. unfold get_student_state. by rewrite E. Qed.

(** [record_answer] leaves the tracker with the answered state stored under
    the key of the call, and reports that state's probability. *)
Lemma record_answer_fst self sid kp q ok now :
  (record_answer self sid kp q ok now).1 =
  store_state (get_student_state self sid kp now).1 sid kp
    (answered (get_student_state self sid kp now).2 q ok now).
Proof.
  unfold record_answer.
  destruct (get_student_state self sid kp now) as [self1 state0]; simpl.
  unfold get_recommended_difficulty.
  rewrite (get_student_state_present _ _ _ _ _ (lookup_store_eq _ _ _ _)).
  done.
Qed.

Lemma record_answer_current_mastery self sid kp q ok now :
  r_current_mastery (record_answer self sid kp q ok now).2 =
  mastery_prob (answered (get_student_state self sid kp now).2 q ok now).
Proof.
  unfold record_answer.
  destruct (get_student_state self sid kp now) as [self1 state0]; simpl.
  unfold get_recommended_difficulty.
  rewrite (get_student_state_present _ _ _ _ _ (lookup_store_eq _ _ _ _)).
  done.
Qed.

Lemma record_answer_lookup self sid kp q ok now :
  lookup_state (record_answer self sid kp q ok now).1 sid kp =
  Some (answered (get_student_state self sid kp now).2 q ok now).
Proof. rewrite record_answer_fst. apply lookup_store_eq. Qed.

Lemma record_answer_other self sid kp sid' kp' q ok now :
  (sid, kp) ≠ (sid', kp') →
  lookup_state (record_answer self sid kp q ok now).1 sid' kp' =
  lookup_state self sid' kp'.
Proof.
  intros Hne. rewrite record_answer_fst, lookup_store_ne by done.
  by apply get_student_state_other.
Qed.

Lemma answered_mastery state q ok now :
  mastery_prob (answered state q ok now) =
  (update_mastery_probability state ok now).2.
Proof. done. Qed.

Lemma update_mastery_probability_within state ok now :
  within 0.01 0.99 (update_mastery_probability state ok now).2.
Proof. unfold update_mastery_probability; simpl. apply clamp_within. Qed.

(** C1. For every tracker, every finite sequence of [record_answer] calls
    (any students, topics, outcomes and parameters) and every further call,
    the state stored under the key of that call holds a mastery probability
    within [[0.01, 0.99]], and it is the probability the call reports. *)
Theorem record_answer_mastery_within (self : BayesianKnowledgeTracing)
    (cs : list Call) (c : Call) :
  ∃ state,
    lookup_state (do_call (run_calls self cs) c).1 (c_student c) (c_topic c)
      = Some state
    ∧ within 0.01 0.99 (mastery_prob state)
    ∧ r_current_mastery (do_call (run_calls self cs) c).2
      = mastery_prob state.
Proof.
  unfold do_call. eexists. split; [apply record_answer_lookup|]. split.
  - rewrite answered_mastery. apply update_mastery_probability_within.
  - apply record_answer_current_mastery.
Qed.

End tracker.

Section update_rule.
Import Py BKT.

Lemma update_mastery_probability_spec state ok now :
  (update_mastery_probability state ok now).2 =
  spec_update (mastery_prob state) (params state) ok.
Proof.
  unfold update_mastery_probability, spec_update, spec_posterior_correct,
    spec_posterior_incorrect; simpl.
  rewrite clamp_spec. by destruct ok.
Qed.

Lemma update_mastery_probability_stored state ok now :
  mastery_prob (update_mastery_probability state ok now).1 =
  (update_mastery_probability state ok now).2.
Proof. done. Qed.

(** C2. A single mastery update computes the two-observation rule of the
    specification, for every prior mastery and all parameters (in particular
    for a prior in [[0.01, 0.99]] and parameters in [[0, 1]]): the Bayesian
    posterior of the observation, which falls back to the unchanged prior when
    its denominator is not strictly positive, then learning (correct) or
    forgetting (incorrect), then the clamp to [[0.01, 0.99]]; the result is
    what the state stores.  With the default parameters and the initial
    mastery 0.3, one correct answer raises the mastery above 0.3, and an
    incorrect answer after it lowers the mastery, which stays at least 0.01;
    both doubles agree with the exact values of the formulas, 13/20 and
    247/1240, up to 1e-6. *)
Theorem update_mastery_probability_bkt_rule :
  (∀ state ok now,
     (update_mastery_probability state ok now).2
       = spec_update (mastery_prob state) (params state) ok
     ∧ mastery_prob (update_mastery_probability state ok now).1
       = (update_mastery_probability state ok now).2)
  ∧ mastery_prob scenario_start = 0.3%float
  ∧ params scenario_start = mkBKTParameters 0.3 0.2 0.3 0.1 0.05
  ∧ flt 0.3 (mastery_prob scenario_correct)
  ∧ flt (mastery_prob scenario_incorrect) (mastery_prob scenario_correct)
  ∧ fle 0.01 (mastery_prob scenario_incorrect)
  ∧ (exact_correct == 13 # 20)%Q
  ∧ (exact_incorrect == 247 # 1240)%Q
  ∧ close_to (mastery_prob scenario_correct) exact_correct
  ∧ close_to (mastery_prob scenario_incorrect) exact_incorrect.
Proof.
  split.
  { intros. split;
      [apply update_mastery_probability_spec
      |apply update_mastery_probability_stored]. }
  repeat split; try (vm_compute; reflexivity).
Qed.

End update_rule.

Section recent_performance.
Import Py BKT.

Lemma last_n_short {A} n (l : list A) : length l ≤ n → last_n n l = l.
Proof. intros H. unfold last_n. by replace (length l - n) with 0 by lia. Qed.

Lemma last_n_length {A} n (l : list A) : length (last_n n l) ≤ n.
Proof. unfold last_n. rewrite length_drop. lia. Qed.

Lemma last_n_app {A} n (l r : list A) :
  last_n n (last_n n l ++ r) = last_n n (l ++ r).
Proof.
  destruct (decide (length l ≤ n)) as [Hle|Hgt].
  - by rewrite (last_n_short n l).
  - unfold last_n. rewrite !length_app, length_drop.
    replace (length l - (length l - n) + length r - n) with (length r) by lia.
    replace (length l + length r - n) with ((length l - n) + length r) by lia.
    rewrite <-drop_drop. f_equal.
    by rewrite drop_app_le by lia.
Qed.

(** One update of the list: the new outcome is appended and, when the list
    held at most 10 entries, what remains is the last 10 of the result. *)
Lemma push_recent_last_n l b :
  length l ≤ 10 → push_recent l b = last_n 10 (l ++ [b]).
Proof.
  intros Hle. unfold push_recent, last_n. rewrite length_app; simpl.
  destruct (10 <? length l + 1) eqn:E.
  - apply Nat.ltb_lt in E. by replace (length l + 1 - 10) with 1 by lia.
  - apply Nat.ltb_ge in E. by replace (length l + 1 - 10) with 0 by lia.
Qed.

(** Whatever its length, the list never shrinks and grows by at most one:
    a list longer than 10 keeps its length. *)
Lemma push_recent_length l b :
  length (push_recent l b) = if decide (length l < 10) then S (length l)
                             else length l.
Proof.
  unfold push_recent. rewrite length_app; simpl.
  destruct (10 <? length l + 1) eqn:E.
  - apply Nat.ltb_lt in E. rewrite length_drop, length_app; simpl.
    rewrite decide_False by lia. lia.
  - apply Nat.ltb_ge in E. rewrite length_app; simpl.
    rewrite decide_True by lia. lia.
Qed.

Lemma recent_of_get_student_state self sid kp now :
  recent_performance (get_student_state self sid kp now).2 =
  recent_of self sid kp.
Proof.
  unfold recent_of, get_student_state.
  by destruct (lookup_state self sid kp).
Qed.

Lemma recent_of_do_call_same self c :
  recent_of (do_call self c).1 (c_student c) (c_topic c) =
  push_recent (recent_of self (c_student c) (c_topic c)) (c_correct c).
Proof.
  unfold do_call, recent_of at 1. rewrite record_answer_lookup; simpl.
  by rewrite recent_of_get_student_state.
Qed.

Lemma recent_of_do_call_other self c sid kp :
  ¬ (c_student c = sid ∧ c_topic c = kp) →
  recent_of (do_call self c).1 sid kp = recent_of self sid kp.
Proof.
  intros Hne. unfold do_call, recent_of.
  rewrite record_answer_other; [done|]. intros [= ? ?]. by apply Hne.
Qed.

Lemma recent_of_run_calls (self : BayesianKnowledgeTracing)
    (cs : list Call) (sid kp : string) :
  length (recent_of self sid kp) ≤ 10 →
  length (recent_of (run_calls self cs) sid kp) ≤ 10
  ∧ recent_of (run_calls self cs) sid kp
    = last_n 10 (recent_of self sid kp ++ outcomes_for sid kp cs).
Proof.
  revert self. induction cs as [|c cs IH]; intros self Hle; simpl.
  { unfold outcomes_for; simpl. rewrite app_nil_r.
    by rewrite last_n_short. }
  change (fold_left _ cs _) with (run_calls (do_call self c).1 cs).
  unfold outcomes_for. rewrite filter_cons.
  destruct (decide (c_student c = sid ∧ c_topic c = kp)) as [[<- <-]|Hne].
  - destruct (IH (do_call self c).1) as [IH1 IH2].
    { rewrite recent_of_do_call_same, push_recent_length.
      case_decide; lia. }
    split; [done|]. rewrite IH2, recent_of_do_call_same.
    rewrite push_recent_last_n by done. rewrite last_n_app.
    by rewrite <-app_assoc.
  - destruct (IH (do_call self c).1) as [IH1 IH2].
    { by rewrite recent_of_do_call_other. }
    split; [done|]. by rewrite IH2, recent_of_do_call_other.
Qed.


(** On a tracker that starts without states, the bound needs no premise:
    every list holds the last 10 outcomes of its key. *)
Corollary recent_performance_bounded_from_new (defaults : BKTParameters)
    (cs : list Call) (sid kp : string) :
  length (recent_of (run_calls (mkBKT defaults ∅) cs) sid kp) ≤ 10
  ∧ recent_of (run_calls (mkBKT defaults ∅) cs) sid kp
    = last_n 10 (outcomes_for sid kp cs).
Proof.
  assert (recent_of (mkBKT defaults ∅) sid kp = []) as E.
  { unfold recent_of, lookup_state; simpl. by rewrite lookup_empty. }
  pose proof (recent_of_run_calls (mkBKT defaults ∅) cs sid kp) as H.
  rewrite E in H. apply H. simpl. lia.
Qed.



End recent_performance.

Section recommended_difficulty.
Import Py BKT.

Lemma difficulty_of_score_easy c : flt c 0.3 → difficulty_of_score c = EASY.
Proof. unfold flt, difficulty_of_score. by intros ->. Qed.

Lemma difficulty_of_score_medium c :
  fle 0.3 c → flt c 0.7 → difficulty_of_score c = MEDIUM.
Proof.
  unfold fle, flt, difficulty_of_score. intros Hlo%leb_ltb_false Hhi.
  by rewrite Hlo, Hhi.
Qed.

Lemma difficulty_of_score_hard c : fle 0.7 c → difficulty_of_score c = HARD.
Proof.
  unfold fle, difficulty_of_score. intros Hhi%leb_ltb_false.
  destruct (c <? 0.3)%float eqn:E.
  - assert ((c <? 0.7)%float = true) by (by apply (ltb_trans c 0.3 0.7)).
    congruence.
  - by rewrite Hhi.
Qed.

Lemma get_recommended_difficulty_snd self sid kp now :
  (get_recommended_difficulty self sid kp now).2 =
  difficulty_of_score (combined_score (get_student_state self sid kp now).2).
Proof.
  unfold get_recommended_difficulty.
  by destruct (get_student_state self sid kp now).
Qed.

(** C4. [get_recommended_difficulty] looks at the state of the student and
    topic (the stored one, or the one it initializes), takes the fraction of
    correct answers in [recent_performance] as recent accuracy (0.0 for an
    empty list) and the combined score 0.7·mastery + 0.3·recentAccuracy, and
    returns 'easy' when the score is below 0.3, 'medium' when it is in
    [[0.3, 0.7)] and 'hard' when it is at least 0.7; the scores 0.3 and 0.7
    themselves give 'medium' and 'hard', the scores 0.299 and 0.699 'easy' and
    'medium'. *)
Theorem get_recommended_difficulty_buckets (self : BayesianKnowledgeTracing)
    (sid kp now : string) :
  let state := (get_student_state self sid kp now).2 in
  let recent := recent_performance state in
  let recent_accuracy :=
    match recent with
    | [] => 0.0%float
    | _ => (float_of_nat (length (filter (λ b, b = true) recent))
            / float_of_nat (length recent))%float
    end in
  let score := (0.7 * mastery_prob state + 0.3 * recent_accuracy)%float in
  let difficulty := (get_recommended_difficulty self sid kp now).2 in
  difficulty = difficulty_of_score score
  ∧ (flt score 0.3 → difficulty = EASY)
  ∧ (fle 0.3 score → flt score 0.7 → difficulty = MEDIUM)
  ∧ (fle 0.7 score → difficulty = HARD)
  ∧ (score = 0.3%float → difficulty = MEDIUM)
  ∧ (score = 0.7%float → difficulty = HARD)
  ∧ (score = 0.299%float → difficulty = EASY)
  ∧ (score = 0.699%float → difficulty = MEDIUM).
Proof.
  intros state recent recent_accuracy score difficulty.
  assert (difficulty = difficulty_of_score score) as Hd.
  { unfold difficulty. rewrite get_recommended_difficulty_snd.
    unfold score, recent_accuracy, recent, state, combined_score,
      _calculate_recent_accuracy, truediv, sum_bool.
    by destruct (recent_performance _). }
  split; [done|]. rewrite Hd.
  split; [apply difficulty_of_score_easy|].
  split; [apply difficulty_of_score_medium|].
  split; [apply difficulty_of_score_hard|].
  repeat split; by intros ->.
Qed.

(** The three buckets are met by stored states: a new student with the
    default parameters (score 0.21), the same student after one correct
    answer (score 0.755), and after an incorrect and a correct one
    (score 0.373). *)
Example get_recommended_difficulty_examples :
  let q := mkQuestion (Some 1%Z) (Some (DLabel EASY)) None None None None "" "" "" in
  let fresh := mkBKT BKTParameters_default ∅ in
  (get_recommended_difficulty fresh "s" "t" "now").2 = EASY
  ∧ (get_recommended_difficulty
       (run_calls fresh [mkCall "s" "t" q true "now"]) "s" "t" "now").2
    = HARD
  ∧ (get_recommended_difficulty
       (run_calls fresh [mkCall "s" "t" q false "now";
                         mkCall "s" "t" q true "now"]) "s" "t" "now").2
    = MEDIUM.
Proof. repeat split; vm_compute; reflexivity. Qed.

End recommended_difficulty.

Section personalization.
Import Py BKT.





(** Both cases occur.  After ten correct answers on one topic (accuracy 1.0,
    learning speed 0.0767) a state for another topic starts at 0.5 with the
    learning rate 0.2; after ten incorrect answers it starts at 0.2 with the
    learning rate 0.15; after nine answers it starts with the defaults. *)
Example initialize_student_personalized_examples :
  let q := mkQuestion (Some 1%Z) (Some (DLabel EASY)) None None None None
             "1+1=?" "2" "" in
  let after n b :=
    run_calls (mkBKT BKTParameters_default ∅)
      (replicate n (mkCall "s" "t" q b "now")) in
  let started n b := (initialize_student (after n b) "s" "u" None "now").2 in
  length (learner_history (after 10 true) "s") = 10
  ∧ params (started 10 true) = mkBKTParameters 0.5 0.2 0.3 0.1 0.05
  ∧ mastery_prob (started 10 true) = 0.5%float
  ∧ params (started 10 false) = mkBKTParameters 0.2 0.15 0.3 0.1 0.05
  ∧ params (started 9 true) = BKTParameters_default.
Proof. repeat split; vm_compute; reflexivity. Qed.

End personalization.

(** ** The adaptive selector *)

Section selector.
Import Py BKT Core.
Implicit Types (q : Question) (candidates : list Question).

Lemma random_choice_Ok {A} (r : nat) (seq : list A) :
  seq ≠ [] →
  ∃ x, seq !! (r mod length seq) = Some x ∧ random_choice r seq = Ok x.
Proof.
  intros Hne. unfold random_choice.
  destruct (lookup_lt_is_Some_2 seq (r mod length seq)) as [x Hx].
  { apply Nat.mod_upper_bound. by destruct seq. }
  exists x. by rewrite Hx.
Qed.

Lemma try_fallbacks_first_nonempty r candidates difficulties :
  try_fallbacks r candidates difficulties =
  random_choice r <$> first_nonempty_bucket candidates difficulties.
Proof.
  induction difficulties as [|d rest IH]; simpl; [done|].
  by destruct (with_difficulty d candidates).
Qed.

Lemma first_nonempty_bucket_None candidates difficulties :
  first_nonempty_bucket candidates difficulties = None ↔
  ∀ d, d ∈ difficulties → with_difficulty d candidates = [].
Proof.
  induction difficulties as [|d rest IH]; simpl.
  - split; [|done]. intros _ d Hd. by apply elem_of_nil in Hd.
  - destruct (with_difficulty d candidates) as [|q bucket] eqn:E.
    + rewrite IH. split.
      * intros H d' [->|Hd']%elem_of_cons; [done|by apply H].
      * intros H d' Hd'. apply H. by right.
    + split; [done|]. intros H. specialize (H d). rewrite E in H.
      discriminate H. by left.
Qed.

Lemma first_nonempty_bucket_Some candidates pre d post :
  (∀ d', d' ∈ pre → with_difficulty d' candidates = []) →
  with_difficulty d candidates ≠ [] →
  first_nonempty_bucket candidates (pre ++ d :: post) =
  Some (with_difficulty d candidates).
Proof.
  intros Hpre Hd. induction pre as [|d0 pre IH]; simpl.
  - by destruct (with_difficulty d candidates).
  - rewrite (Hpre d0) by by left. apply IH. intros d' Hd'. apply Hpre. by right.
Qed.

Lemma first_nonempty_bucket_is_bucket candidates difficulties bucket :
  first_nonempty_bucket candidates difficulties = Some bucket →
  bucket ≠ [] ∧ ∃ d, d ∈ difficulties ∧ bucket = with_difficulty d candidates.
Proof.
  induction difficulties as [|d rest IH]; simpl; [done|].
  destruct (with_difficulty d candidates) as [|q b] eqn:E.
  - intros [? (d' & ? & ?)]%IH. split; [done|]. exists d'. split; [by right|done].
  - intros [= <-]. split; [done|]. exists d. split; [by left|done].
Qed.

Lemma selection_pool_nonempty m candidates :
  candidates ≠ [] → selection_pool m candidates ≠ [].
Proof.
  intros Hne. unfold selection_pool.
  destruct (first_nonempty_bucket _ _) as [bucket|] eqn:E; simpl; [|done].
  by apply first_nonempty_bucket_is_bucket in E as [? _].
Qed.

Lemma selection_pool_subseteq m candidates q :
  q ∈ selection_pool m candidates → q ∈ candidates.
Proof.
  unfold selection_pool.
  destruct (first_nonempty_bucket _ _) as [bucket|] eqn:E; simpl; [|done].
  apply first_nonempty_bucket_is_bucket in E as [_ (d & _ & ->)].
  unfold with_difficulty. by intros [_ ?]%list_elem_of_filter.
Qed.

(** The selector returns [None] on an empty list of unused questions and
    otherwise the entry of the selection pool the draw points at. *)
Lemma select_adaptive_question_pool sid kp m available used r :
  let candidates := unused_questions available used in
  _select_adaptive_question sid kp m available used r =
  match candidates with
  | [] => Ok None
  | _ => bind (random_choice r (selection_pool m candidates))
           (λ selected, Ok (Some selected))
  end.
Proof.
  intros candidates. unfold _select_adaptive_question, selection_pool.
  fold candidates. destruct candidates as [|q0 rest] eqn:Ec; [done|].
  simpl first_nonempty_bucket.
  destruct (with_difficulty (target_difficulty m) (q0 :: rest)); [|done].
  rewrite try_fallbacks_first_nonempty.
  by destruct (first_nonempty_bucket _ _).
Qed.

Lemma select_adaptive_question_picks sid kp m available used r :
  let candidates := unused_questions available used in
  candidates ≠ [] →
  ∃ q, selection_pool m candidates
         !! (r mod length (selection_pool m candidates)) = Some q
       ∧ _select_adaptive_question sid kp m available used r = Ok (Some q).
Proof.
  intros candidates Hne. rewrite select_adaptive_question_pool.
  fold candidates. destruct candidates as [|q0 rest] eqn:Ec; [done|].
  destruct (random_choice_Ok r (selection_pool m (q0 :: rest)))
    as (q & Hq & ->); [by apply selection_pool_nonempty|].
  by exists q.
Qed.

Lemma target_difficulty_cases m :
  (flt m 0.3 → target_difficulty m = EASY
               ∧ fallback_difficulties m = [MEDIUM])
  ∧ (fle 0.3 m → flt m 0.7 → target_difficulty m = MEDIUM
                              ∧ fallback_difficulties m = [EASY; HARD])
  ∧ (fle 0.7 m → target_difficulty m = HARD
                 ∧ fallback_difficulties m = [MEDIUM]).
Proof.
  unfold target_difficulty, fallback_difficulties, fle, flt.
  split; [by intros ->|]. split.
  - intros Hlo%leb_ltb_false Hhi. by rewrite Hlo, Hhi.
  - intros Hhi%leb_ltb_false.
    destruct (m <? 0.3)%float eqn:E.
    + assert ((m <? 0.7)%float = true) by (by apply (ltb_trans m 0.3 0.7)).
      congruence.
    + by rewrite Hhi.
Qed.

Lemma difficulty_is_true d q :
  difficulty_is d q = true ↔ q_difficulty q = Some (DLabel d).
Proof.
  unfold difficulty_is. destruct (q_difficulty q) as [[l|x]|]; [|done..].
  rewrite bool_decide_eq_true. split; [by intros ->|by intros [= ->]].
Qed.

Lemma elem_of_with_difficulty d candidates q :
  q ∈ with_difficulty d candidates ↔ q_difficulty q = Some (DLabel d) ∧ q ∈ candidates.
Proof.
  unfold with_difficulty. rewrite list_elem_of_filter, difficulty_is_true.
  done.
Qed.

Lemma with_difficulty_nil d candidates :
  (∀ q, q ∈ candidates → q_difficulty q ≠ Some (DLabel d)) →
  with_difficulty d candidates = [].
Proof.
  intros H. destruct (with_difficulty d candidates) as [|q b] eqn:E; [done|].
  assert (q ∈ with_difficulty d candidates) as Hq by (rewrite E; by left).
  apply elem_of_with_difficulty in Hq as [Hd Hq]. by destruct (H q Hq).
Qed.

Lemma with_difficulty_nonempty d candidates q :
  q ∈ candidates → q_difficulty q = Some (DLabel d) → with_difficulty d candidates ≠ [].
Proof.
  intros Hq Hd E.
  assert (q ∈ with_difficulty d candidates) as H
    by by apply elem_of_with_difficulty.
  rewrite E in H. by apply elem_of_nil in H.
Qed.

Lemma elem_of_unused_questions available used q :
  q ∈ unused_questions available used ↔ (q_id q ∉ used) ∧ q ∈ available.
Proof. unfold unused_questions. by rewrite list_elem_of_filter. Qed.

Lemma unused_questions_nil available used :
  unused_questions available used = [] ↔
  ∀ q, q ∈ available → q_id q ∈ used.
Proof.
  split.
  - intros E q Hq. destruct (decide (q_id q ∈ used)) as [|Hn]; [done|].
    assert (q ∈ unused_questions available used) as H
      by by apply elem_of_unused_questions.
    rewrite E in H. by apply elem_of_nil in H.
  - intros H.
    destruct (unused_questions available used) as [|q l] eqn:E; [done|].
    assert (q ∈ unused_questions available used) as Hq by (rewrite E; by left).
    apply elem_of_unused_questions in Hq as [Hn Hq]. by destruct (Hn (H q Hq)).
Qed.

Lemma selection_pool_bucket m candidates pre d post :
  target_difficulty m :: fallback_difficulties m = pre ++ d :: post →
  (∀ d', d' ∈ pre → with_difficulty d' candidates = []) →
  with_difficulty d candidates ≠ [] →
  selection_pool m candidates = with_difficulty d candidates.
Proof.
  intros E Hpre Hd. unfold selection_pool.
  by rewrite E, (first_nonempty_bucket_Some _ _ _ _ Hpre Hd).
Qed.

(** C5. The selector draws from the unused questions of the target
    difficulty implied by the mastery (below 0.3 easy, in [[0.3, 0.7)] medium,
    from 0.7 on hard), every position of that bucket being the choice of the
    draws congruent to it; when the bucket is empty it goes through the
    fallback difficulties in order (medium for easy, easy then hard for
    medium, medium for hard) and draws from the first bucket that is not
    empty.  With a mastery in [[0.3, 0.7)] and unused questions that are all
    easy or hard, it raises nothing and returns an unused question whenever
    one remains, an easy one whenever an unused easy question remains. *)
Theorem select_adaptive_question_policy (sid kp : string) (m : float)
    (available : list Question) (used : gset (option Z)) (r : nat) :
  let candidates := unused_questions available used in
  let bucket d := with_difficulty d candidates in
  let result := _select_adaptive_question sid kp m available used r in
  let drawn_from (pool : list Question) :=
    ∃ q, pool !! (r mod length pool) = Some q ∧ result = Ok (Some q) in
  (∀ target fallbacks,
     flt m 0.3 ∧ target = EASY ∧ fallbacks = [MEDIUM]
     ∨ fle 0.3 m ∧ flt m 0.7 ∧ target = MEDIUM ∧ fallbacks = [EASY; HARD]
     ∨ fle 0.7 m ∧ target = HARD ∧ fallbacks = [MEDIUM] →
     (bucket target ≠ [] → drawn_from (bucket target))
     ∧ (∀ pre d post,
          bucket target = [] → fallbacks = pre ++ d :: post →
          (∀ d', d' ∈ pre → bucket d' = []) → bucket d ≠ [] →
          drawn_from (bucket d)))
  ∧ (fle 0.3 m → flt m 0.7 →
     (∀ q, q ∈ candidates →
           q_difficulty q = Some (DLabel EASY) ∨ q_difficulty q = Some (DLabel HARD)) →
     candidates ≠ [] →
     ∃ q, result = Ok (Some q) ∧ q ∈ available ∧ (q_id q ∉ used)
          ∧ ((∃ q', q' ∈ candidates ∧ q_difficulty q' = Some (DLabel EASY)) →
             q_difficulty q = Some (DLabel EASY))).
Proof.
  intros candidates bucket result drawn_from.
  assert (∀ d, bucket d ≠ [] → candidates ≠ []) as Hcand.
  { intros d Hd ->. by apply Hd. }
  assert (∀ pre d post,
            target_difficulty m :: fallback_difficulties m = pre ++ d :: post →
            (∀ d', d' ∈ pre → bucket d' = []) → bucket d ≠ [] →
            drawn_from (bucket d)) as Hdraw.
  { intros pre d post E Hpre Hd.
    destruct (select_adaptive_question_picks sid kp m available used r
                (Hcand d Hd)) as (q & Hq & Hres).
    fold candidates in Hq.
    rewrite (selection_pool_bucket m candidates pre d post E Hpre Hd) in Hq.
    by exists q. }
  destruct (target_difficulty_cases m) as (Heasy & Hmedium & Hhard).
  split.
  - intros target fallbacks Hcase.
    assert (target = target_difficulty m
            ∧ fallbacks = fallback_difficulties m) as [-> ->].
    { destruct Hcase as [(H & -> & ->)|[(H1 & H2 & -> & ->)|(H & -> & ->)]].
      - by destruct (Heasy H) as [-> ->].
      - by destruct (Hmedium H1 H2) as [-> ->].
      - by destruct (Hhard H) as [-> ->]. }
    split.
    + intros Hne. apply (Hdraw [] _ (fallback_difficulties m)); [done| |done].
      intros d' Hd'. by apply elem_of_nil in Hd'.
    + intros pre d post Hnil E Hpre Hd.
      apply (Hdraw (target_difficulty m :: pre) d post);
        [by rewrite E| |done].
      intros d' [->|Hd']%elem_of_cons; [done|by apply Hpre].
  - intros Hlo Hhi Honly Hne.
    destruct (Hmedium Hlo Hhi) as [Ht Hf].
    destruct (select_adaptive_question_picks sid kp m available used r Hne)
      as (q & Hq & Hres).
    fold candidates in Hq. exists q. split; [done|].
    pose proof (list_elem_of_lookup_2 _ _ _ Hq) as Hpool.
    pose proof (selection_pool_subseteq _ _ _ Hpool) as Hin.
    apply elem_of_unused_questions in Hin as [Hunused Hav].
    split; [done|]. split; [done|]. intros (q' & Hq' & Heasy').
    assert (bucket MEDIUM = []) as Hnomedium.
    { apply with_difficulty_nil. intros q0 Hq0.
      by destruct (Honly q0 Hq0) as [-> | ->]. }
    rewrite (selection_pool_bucket m candidates [MEDIUM] EASY [HARD])
      in Hpool.
    + apply elem_of_with_difficulty in Hpool. tauto.
    + by rewrite Ht, Hf.
    + intros d' ->%list_elem_of_singleton. done.
    + by eapply with_difficulty_nonempty.
Qed.

(** The scenario of the specification: a pool of two easy and one hard
    question, none of them used, and the mastery 0.5; whatever the draw, an
    easy question comes back. *)
Example select_adaptive_question_easy_for_medium (r : nat) :
  let easy1 := mkQuestion (Some 1%Z) (Some (DLabel EASY)) None None None None
                 "1+1=?" "2" "" in
  let easy2 := mkQuestion (Some 2%Z) (Some (DLabel EASY)) None None None None
                 "2+2=?" "4" "" in
  let hard := mkQuestion (Some 3%Z) (Some (DLabel HARD)) None None None None
                "x^2=2" "sqrt 2" "" in
  ∃ q, _select_adaptive_question "s" "t" 0.5 [easy1; hard; easy2] ∅ r
       = Ok (Some q) ∧ (q = easy1 ∨ q = easy2).
Proof.
  intros easy1 easy2 hard. rewrite select_adaptive_question_pool.
  change (unused_questions _ _) with [easy1; hard; easy2].
  change (selection_pool _ _) with [easy1; easy2].
  unfold random_choice. change (length [easy1; easy2]) with 2.
  pose proof (Nat.mod_upper_bound r 2) as Hlt.
  destruct (r mod 2) as [|[|n]]; simpl.
  - exists easy1. split; [done|by left].
  - exists easy2. split; [done|by right].
  - lia.
Qed.

(** C6. The selector returns [None] exactly when every question of the pool
    has its id among the used ones; it never raises; and whenever an unused
    question remains it returns an unused question of the pool: the one the
    draw picks in the target bucket, else in the first non-empty fallback
    bucket, else among all unused questions. *)
Theorem select_adaptive_question_none_iff (sid kp : string) (m : float)
    (available : list Question) (used : gset (option Z)) (r : nat) :
  let candidates := unused_questions available used in
  let result := _select_adaptive_question sid kp m available used r in
  (result = Ok None ↔ ∀ q, q ∈ available → q_id q ∈ used)
  ∧ (∀ cls msg, result ≠ Raise cls msg)
  ∧ ((∃ q, q ∈ available ∧ q_id q ∉ used) →
     ∃ q, result = Ok (Some q) ∧ q ∈ available ∧ (q_id q ∉ used)
          ∧ selection_pool m candidates
              !! (r mod length (selection_pool m candidates)) = Some q)
  ∧ (with_difficulty (target_difficulty m) candidates = [] →
     (∀ d, d ∈ fallback_difficulties m → with_difficulty d candidates = []) →
     selection_pool m candidates = candidates).
Proof.
  intros candidates result.
  assert (candidates ≠ [] →
          ∃ q, result = Ok (Some q) ∧ q ∈ available ∧ (q_id q ∉ used)
               ∧ selection_pool m candidates
                   !! (r mod length (selection_pool m candidates)) = Some q)
    as Hsome.
  { intros Hne.
    destruct (select_adaptive_question_picks sid kp m available used r Hne)
      as (q & Hq & Hres).
    fold candidates in Hq. exists q. split; [done|].
    pose proof (list_elem_of_lookup_2 _ _ _ Hq) as Hpool.
    pose proof (selection_pool_subseteq _ _ _ Hpool) as Hin.
    apply elem_of_unused_questions in Hin as [Hunused Hav]. done. }
  assert (candidates = [] → result = Ok None) as Hnone.
  { intros E. unfold result. rewrite select_adaptive_question_pool.
    fold candidates. by rewrite E. }
  split; [|split; [|split]].
  - rewrite <-unused_questions_nil. fold candidates. split; [|done].
    intros Hres. destruct candidates as [|q0 rest] eqn:E; [done|].
    destruct Hsome as (q & Hq & _); [done|]. congruence.
  - intros cls msg Hres. destruct candidates as [|q0 rest] eqn:E.
    + rewrite Hnone in Hres by done. discriminate.
    + destruct Hsome as (q & Hq & _); [done|]. congruence.
  - intros (q & Hq & Hunused). apply Hsome. intros E.
    assert (q ∈ candidates) as Hin by by apply elem_of_unused_questions.
    rewrite E in Hin. by apply elem_of_nil in Hin.
  - intros Ht Hf. unfold selection_pool.
    assert (first_nonempty_bucket candidates
              (target_difficulty m :: fallback_difficulties m) = None) as ->.
    { apply first_nonempty_bucket_None.
      intros d [->|Hd]%elem_of_cons; [done|by apply Hf]. }
    done.
Qed.

(** A pool of two questions that both were used is exhausted; with one of
    them unused, that one comes back whatever the mastery and the draw. *)
Example select_adaptive_question_exhausted (m : float) (r : nat) :
  let q1 := mkQuestion (Some 1%Z) (Some (DLabel EASY)) None None None None
              "1+1=?" "2" "" in
  let q2 := mkQuestion (Some 2%Z) (Some (DLabel HARD)) None None None None
              "x^2=2" "sqrt 2" "" in
  _select_adaptive_question "s" "t" m [q1; q2] {[ Some 1%Z; Some 2%Z ]} r
    = Ok None
  ∧ _select_adaptive_question "s" "t" m [q1; q2] {[ Some 1%Z ]} r
    = Ok (Some q2).
Proof.
  intros q1 q2. split.
  - apply select_adaptive_question_pool.
  - rewrite select_adaptive_question_pool.
    change (unused_questions _ _) with [q2].
    assert (selection_pool m [q2] = [q2]) as ->.
    { unfold selection_pool, target_difficulty, fallback_difficulties.
      by destruct (m <? 0.3)%float, (m <? 0.7)%float. }
    unfold random_choice. change (length [q2]) with 1.
    by rewrite Nat.mod_1_r.
Qed.

End selector.

(** ** The session *)

Section session.
Import Py BKT Core.

(** C10. When the evaluator raises during [submit_answer], the tracker is
    returned as it was (no [record_answer] update: every mastery state is
    unchanged), nothing is appended to [answer_records], the current index,
    the question list and every other key of the session are unchanged, and
    [last_result] marks the answer incorrect and carries the failure
    reason. *)
Theorem submit_answer_evaluator_failure (bkt : BayesianKnowledgeTracing)
    (check_answer : Question → string → result (bool * string))
    (session : Session) (student_answer now : string) (r : nat)
    (cls msg : string) :
  check_answer (s_current_question session) student_answer = Raise cls msg →
  let bkt' := (submit_answer bkt check_answer session student_answer now r).1 in
  let session' :=
    (submit_answer bkt check_answer session student_answer now r).2 in
  bkt' = bkt
  ∧ (∀ sid kp, lookup_state bkt' sid kp = lookup_state bkt sid kp)
  ∧ s_answer_records session' = s_answer_records session
  ∧ s_current_index session' = s_current_index session
  ∧ s_questions session' = s_questions session
  ∧ s_last_result session'
    = Some (mkSessionRecord (s_current_question session) student_answer false
              ("处理失败: " +:+ msg) None None None)
  ∧ session' = set_last_result session
                 (mkSessionRecord (s_current_question session) student_answer
                    false ("处理失败: " +:+ msg) None None None).
Proof.
  intros Hraise bkt' session'. unfold bkt', session', submit_answer.
  rewrite Hraise; simpl. done.
Qed.

(** A session of one easy question whose evaluator times out. *)
Lemma submit_answer_evaluator_failure_witness :
  let q := mkQuestion (Some 1%Z) (Some (DLabel EASY)) None None None None
             "1+1=?" "2" "" in
  let bkt := mkBKT BKTParameters_default ∅ in
  let check_answer := λ (_ : Question) (_ : string),
                        @Raise (bool * string) "TimeoutError" "timeout" in
  let session := mkSession "t" "s" 1 1 q [q] [] None {[ Some 1%Z ]} [q]
                   0.3 0.3 in
  check_answer q "2" = Raise "TimeoutError" "timeout"
  ∧ (submit_answer bkt check_answer session "2" "now" 0).1 = bkt
  ∧ s_answer_records
      (submit_answer bkt check_answer session "2" "now" 0).2 = []
  ∧ s_last_result (submit_answer bkt check_answer session "2" "now" 0).2
    = Some (mkSessionRecord q "2" false ("处理失败: " +:+ "timeout")
              None None None).
Proof.
  intros q bkt check_answer session.
  split; [reflexivity|].
  destruct (submit_answer_evaluator_failure bkt check_answer session "2"
              "now" 0 "TimeoutError" "timeout" eq_refl)
    as (H1 & _ & H2 & _ & _ & H3 & _).
  split; [exact H1|]. split; [exact H2|exact H3].
Defined.

(** When the evaluator answers, the same call does update the tracker and
    appends a record. *)
Example submit_answer_evaluated :
  let q := mkQuestion (Some 1%Z) (Some (DLabel EASY)) None None None None
             "1+1=?" "2" "" in
  let bkt := mkBKT BKTParameters_default ∅ in
  let check_answer := λ (_ : Question) (_ : string), Ok (true, "ok") in
  let session := mkSession "t" "s" 1 1 q [q] [] None {[ Some 1%Z ]} [q]
                   0.3 0.3 in
  let out := submit_answer bkt check_answer session "2" "now" 0 in
  length (s_answer_records out.2) = 1
  ∧ (mastery_prob <$> lookup_state out.1 "s" "t")
    = Some (s_current_mastery out.2)
  ∧ flt 0.3 (s_current_mastery out.2).
Proof. repeat split; vm_compute; reflexivity. Qed.

End session.

(** ** Directed graphs and shortest paths *)

Section digraph.
Import Py DiGraph.
Implicit Types (g : DiGraph) (u v w s t : string) (l : list string).

Lemma has_node_true g n : has_node g n = true ↔ is_Some (nodes g !! n).
Proof. unfold has_node. apply bool_decide_eq_true. Qed.

Lemma has_node_false g n : has_node g n = false ↔ nodes g !! n = None.
Proof.
  unfold has_node. rewrite bool_decide_eq_false, eq_None_not_Some. done.
Qed.

Lemma has_edge_true g u v : has_edge g u v = true ↔ is_Some (edges g !! (u, v)).
Proof. unfold has_edge. apply bool_decide_eq_true. Qed.

Lemma elem_of_successors g u v :
  v ∈ successors g u ↔ is_Some (edges g !! (u, v)).
Proof.
  unfold successors. rewrite list_elem_of_fmap. split.
  - intros ([u' v'] & -> & [Hu Hin]%list_elem_of_filter). simpl in *. subst u'.
    apply list_elem_of_fmap in Hin as ([e a] & -> & Hin). simpl.
    apply elem_of_map_to_list in Hin. by exists a.
  - intros [a Ha]. exists (u, v). split; [done|].
    apply list_elem_of_filter. split; [done|].
    apply list_elem_of_fmap. exists ((u, v), a). split; [done|].
    by apply elem_of_map_to_list.
Qed.

Lemma elem_of_expand g frontier v :
  v ∈ expand g frontier ↔ ∃ u, u ∈ frontier ∧ is_Some (edges g !! (u, v)).
Proof.
  unfold expand. rewrite elem_of_remove_dups, list_elem_of_bind.
  setoid_rewrite elem_of_successors.
  split; intros (y & ? & ?); by exists y.
Qed.

Lemma elem_of_level g k frontier v :
  v ∈ level g k frontier ↔
  ∃ u l, u ∈ frontier ∧ length l = k ∧ is_path g u l v.
Proof.
  revert frontier. induction k as [|k IH]; intros frontier; simpl.
  - split.
    + intros Hv. by exists v, [].
    + intros (u & l & Hu & Hl & Hp). destruct l; [|done]. simpl in Hp.
      by subst.
  - rewrite IH. split.
    + intros (w & l & Hw & Hl & Hp).
      apply elem_of_expand in Hw as (u & Hu & He).
      exists u, (w :: l). simpl. by rewrite Hl.
    + intros (u & l & Hu & Hl & Hp). destruct l as [|w l]; [done|].
      simpl in Hp, Hl. destruct Hp as [He Hp].
      exists w, l. split; [|split; [lia|done]].
      apply elem_of_expand. by exists u.
Qed.

Lemma bfs_spec g t fuel depth frontier :
  match bfs g t fuel depth frontier with
  | Some d =>
      ∃ k, k < fuel ∧ d = depth + k ∧ t ∈ level g k frontier
           ∧ ∀ j, j < k → t ∉ level g j frontier
  | None => ∀ k, k < fuel → t ∉ level g k frontier
  end.
Proof.
  revert depth frontier.
  induction fuel as [|fuel IH]; intros depth frontier; simpl; [lia|].
  case_bool_decide as Ht.
  - exists 0. split; [lia|]. split; [lia|]. split; [done|lia].
  - specialize (IH (S depth) (expand g frontier)).
    destruct (bfs g t fuel (S depth) (expand g frontier)) as [d|].
    + destruct IH as (k & Hk & -> & Hin & Hmin).
      exists (S k). split; [lia|]. split; [lia|]. split; [done|].
      intros [|j] Hj; [done|]. simpl. apply Hmin. lia.
    + intros [|k] Hk; [done|]. simpl. apply IH. lia.
Qed.

Lemma is_path_suffix g v m t a s b :
  is_path g v m t → v :: m = a ++ s :: b → is_path g s b t.
Proof.
  revert v m. induction a as [|x a IH]; intros v m Hp E; simpl in E.
  - by injection E as -> ->.
  - injection E as -> ->. destruct a as [|y a]; simpl in Hp.
    + by destruct Hp.
    + destruct Hp as [_ Hp]. by apply (IH y (a ++ s :: b)).
Qed.

(** A path can be cut down to one that visits no vertex twice. *)
Lemma is_path_NoDup g s l t :
  is_path g s l t →
  ∃ l', length l' ≤ length l ∧ NoDup (s :: l') ∧ is_path g s l' t.
Proof.
  revert s. induction l as [|v l IH]; intros s Hp.
  - exists []. split; [done|]. split; [|done].
    apply NoDup_singleton.
  - destruct Hp as [He Hp]. destruct (IH v Hp) as (m & Hlen & Hnd & Hm).
    destruct (decide (s ∈ v :: m)) as [Hin|Hnin].
    + apply list_elem_of_split in Hin as (a & b & E).
      exists b. split; [|split].
      * apply (f_equal length) in E. rewrite length_app in E. simpl in *. lia.
      * rewrite E in Hnd. apply NoDup_app in Hnd. tauto.
      * by eapply is_path_suffix.
    + exists (v :: m). split; [simpl; lia|]. split; [by constructor|done].
Qed.

Lemma is_path_nodes g s l t :
  closed g → is_Some (nodes g !! s) → is_path g s l t →
  ∀ x, x ∈ s :: l → is_Some (nodes g !! x).
Proof.
  intros Hc. revert s. induction l as [|v l IH]; intros s Hs Hp x Hx.
  - apply list_elem_of_singleton in Hx. by subst.
  - destruct Hp as [He Hp]. apply elem_of_cons in Hx as [->|Hx]; [done|].
    apply (IH v); [|done..]. by apply (Hc s v).
Qed.

(** In a graph with [n] nodes a path, if there is one, can be taken with
    fewer than [n] edges. *)
Lemma is_path_short g s l t :
  closed g → is_Some (nodes g !! s) → is_path g s l t →
  ∃ l', length l' ≤ length l ∧ length l' < size (nodes g) ∧ is_path g s l' t.
Proof.
  intros Hc Hs Hp. destruct (is_path_NoDup g s l t Hp) as (l' & Hlen & Hnd & Hp').
  exists l'. split; [done|]. split; [|done].
  assert (list_to_set (C := gset string) (s :: l') ⊆ dom (nodes g)) as Hsub.
  { intros x Hx%elem_of_list_to_set. apply elem_of_dom.
    by apply (is_path_nodes g s l' t). }
  apply subseteq_size in Hsub.
  rewrite size_list_to_set, size_dom in Hsub by done. simpl in Hsub. lia.
Qed.

Lemma distance_shortest g s t d :
  closed g → is_Some (nodes g !! s) → shortest g s t d →
  distance g s t = Some d.
Proof.
  intros Hc Hs [(l & Hl & Hp) Hmin]. unfold distance.
  pose proof (bfs_spec g t (size (nodes g)) 0 [s]) as Hbfs.
  destruct (bfs g t (size (nodes g)) 0 [s]) as [d'|].
  - destruct Hbfs as (k & Hk & -> & Hin & Hfirst). simpl. f_equal.
    apply elem_of_level in Hin as (u & l' & ->%list_elem_of_singleton & Hl' & Hp').
    specialize (Hmin l' Hp').
    destruct (decide (d < k)) as [Hlt|]; [|lia].
    destruct (Hfirst d Hlt). apply elem_of_level.
    exists s, l. split; [by left|done].
  - destruct (is_path_short g s l t Hc Hs Hp) as (l' & _ & Hshort & Hp').
    destruct (Hbfs (length l') Hshort). apply elem_of_level.
    exists s, l'. split; [by left|done].
Qed.

Lemma distance_Some g s t d : distance g s t = Some d → shortest g s t d.
Proof.
  unfold distance. intros E.
  pose proof (bfs_spec g t (size (nodes g)) 0 [s]) as Hbfs. rewrite E in Hbfs.
  destruct Hbfs as (k & Hk & -> & Hin & Hfirst). simpl.
  apply elem_of_level in Hin as (u & l & ->%list_elem_of_singleton & Hl & Hp).
  split; [by exists l|]. intros l' Hp'.
  destruct (decide (length l' < k)) as [Hlt|]; [|lia].
  destruct (Hfirst _ Hlt). apply elem_of_level.
  exists s, l'. split; [by left|done].
Qed.

Lemma distance_None g s t :
  (∀ l, ¬ is_path g s l t) → distance g s t = None.
Proof.
  intros Hno. destruct (distance g s t) as [d|] eqn:E; [|done].
  apply distance_Some in E as [(l & _ & Hp) _]. by destruct (Hno l).
Qed.

End digraph.

(** ** The relevance score *)

Section relevance.
Import Py DiGraph RAG.
Implicit Types (g : DiGraph).

Lemma shortest_path_length_Ok g s t d :
  closed g → has_node g s = true → has_node g t = true → shortest g s t d →
  shortest_path_length g s t = Ok d.
Proof.
  intros Hc Hs Ht Hd. unfold shortest_path_length. rewrite Hs, Ht; simpl.
  apply has_node_true in Hs. by rewrite (distance_shortest g s t d).
Qed.

Lemma _calculate_relevance_path g q t d :
  closed g → has_node g q = true → has_node g t = true → shortest g q t d →
  _calculate_relevance g q t = (1.0 / float_of_nat (d + 1))%float.
Proof.
  intros Hc Hq Ht Hd. unfold _calculate_relevance, has_path.
  by rewrite (shortest_path_length_Ok g q t d).
Qed.

Lemma _calculate_relevance_no_path g q t :
  (∀ l, ¬ is_path g q l t) → _calculate_relevance g q t = 0.5%float.
Proof.
  intros Hno. unfold _calculate_relevance, has_path, shortest_path_length.
  rewrite (distance_None g q t Hno).
  by destruct (has_node g q && has_node g t).
Qed.

Lemma _calculate_relevance_missing g q t :
  has_node g q = false ∨ has_node g t = false →
  _calculate_relevance g q t = 0.5%float.
Proof.
  intros H. unfold _calculate_relevance, has_path, shortest_path_length.
  by destruct H as [-> | ->]; [|rewrite andb_false_r].
Qed.

Lemma shortest_edge g q t :
  q ≠ t → is_Some (edges g !! (q, t)) → shortest g q t 1.
Proof.
  intros Hne He. split.
  - exists [t]. by simpl.
  - intros [|v l] Hp; simpl in *; [done|lia].
Qed.

Lemma shortest_refl g q : shortest g q q 0.
Proof. split; [by exists []|intros; lia]. Qed.

End relevance.

(** ** Graph construction *)

Section graph_ops.
Import Py DiGraph.
Implicit Types (g : DiGraph) (u v n m : string) (a : gmap string AttrValue).

Lemma nodes_add_node g n a m :
  nodes (add_node g n a) !! m =
  if decide (n = m) then Some (a ∪ default ∅ (nodes g !! n))
  else nodes g !! m.
Proof. unfold add_node; simpl. apply lookup_insert. Qed.

Lemma nodes_add_node_is_Some g n a m :
  is_Some (nodes (add_node g n a) !! m) ↔ n = m ∨ is_Some (nodes g !! m).
Proof.
  rewrite nodes_add_node. case_decide as E.
  - split; [by left|by eexists].
  - split; [by right|]. by intros [?|?].
Qed.

Lemma touch_node_lookup (ns : gmap string (gmap string AttrValue)) n m :
  touch_node ns n !! m =
  match ns !! m with
  | Some x => Some x
  | None => if decide (n = m) then Some ∅ else None
  end.
Proof.
  unfold touch_node. destruct (ns !! n) as [x|] eqn:E.
  - destruct (ns !! m) eqn:Em; [done|]. case_decide; [congruence|done].
  - rewrite lookup_insert. case_decide as Hnm.
    + subst. by rewrite E.
    + by destruct (ns !! m).
Qed.

Lemma nodes_add_edge g u v a m :
  nodes (add_edge g u v a) !! m =
  match nodes g !! m with
  | Some x => Some x
  | None => if decide (u = m ∨ v = m) then Some ∅ else None
  end.
Proof.
  unfold add_edge; simpl. rewrite !touch_node_lookup.
  destruct (nodes g !! m); [done|].
  repeat case_decide; try done; tauto.
Qed.

Lemma nodes_add_edge_is_Some g u v a m :
  is_Some (nodes (add_edge g u v a) !! m) ↔
  u = m ∨ v = m ∨ is_Some (nodes g !! m).
Proof.
  rewrite nodes_add_edge. destruct (nodes g !! m) eqn:E.
  - split; [by right; right|by eexists].
  - case_decide as H.
    + split; [tauto|by eexists].
    + split; [by intros [? ?]|]. intros [?|[?|[? ?]]]; [tauto|tauto|done].
Qed.

Lemma nodes_add_edge_present g u v a :
  is_Some (nodes g !! u) → is_Some (nodes g !! v) →
  nodes (add_edge g u v a) = nodes g.
Proof.
  intros [x Hx] [y Hy]. unfold add_edge, touch_node; simpl.
  rewrite Hx, Hy. done.
Qed.

Lemma edges_add_edge g u v a e :
  edges (add_edge g u v a) !! e =
  if decide ((u, v) = e) then Some (a ∪ default ∅ (edges g !! (u, v)))
  else edges g !! e.
Proof. unfold add_edge; simpl. apply lookup_insert. Qed.

Lemma edge_attr_add_edge_new g u v a key value :
  a !! key = Some value → edge_attr (add_edge g u v a) u v key = Some value.
Proof.
  intros Ha. unfold edge_attr. rewrite edges_add_edge, decide_True by done.
  simpl. by apply lookup_union_Some_l.
Qed.

Lemma edge_attr_add_edge_other g u v a u' v' key :
  (u, v) ≠ (u', v') →
  edge_attr (add_edge g u v a) u' v' key = edge_attr g u' v' key.
Proof.
  intros Hne. unfold edge_attr. by rewrite edges_add_edge, decide_False.
Qed.

Lemma edge_attr_is_Some g u v key value :
  edge_attr g u v key = Some value → is_Some (edges g !! (u, v)).
Proof. unfold edge_attr. by destruct (edges g !! (u, v)). Qed.

Lemma closed_empty : closed DiGraph.empty.
Proof. intros u v [x Hx]. simpl in Hx. by rewrite lookup_empty in Hx. Qed.

Lemma closed_add_node g n a : closed g → closed (add_node g n a).
Proof.
  intros Hc u v He. rewrite !nodes_add_node_is_Some.
  destruct (Hc u v He). tauto.
Qed.

Lemma closed_add_edge g u v a : closed g → closed (add_edge g u v a).
Proof.
  intros Hc u' v' He. rewrite !nodes_add_edge_is_Some.
  rewrite edges_add_edge in He. case_decide as E.
  - injection E as <- <-. tauto.
  - destruct (Hc u' v' He). tauto.
Qed.

End graph_ops.

Section kg_builder.
Import Py DiGraph KGBuilder.
Implicit Types (g : DiGraph) (q : Question) (questions : list Question).

Lemma minor_node_inj x y : minor_node x = minor_node y → x = y.
Proof. unfold minor_node. intros H. cbn in H. by simplify_eq. Qed.

Lemma question_node_not_minor q x : question_node q ≠ minor_node x.
Proof. unfold question_node, minor_node; simpl. discriminate. Qed.

Lemma major_node_not_minor major x : major_node major ≠ minor_node x.
Proof. unfold major_node, minor_node; simpl. discriminate. Qed.

Lemma concept_node_not_minor concept x : concept_node concept ≠ minor_node x.
Proof. unfold concept_node, minor_node; simpl. discriminate. Qed.

Lemma method_node_not_minor method x : method_node method ≠ minor_node x.
Proof. unfold method_node, minor_node; simpl. discriminate. Qed.

Lemma topic_edge_is_Some g u v : topic_edge g u v → is_Some (edges g !! (u, v)).
Proof. intros [H|H]; by apply edge_attr_is_Some in H. Qed.

Lemma kg_inv_empty questions : kg_inv questions DiGraph.empty.
Proof.
  split; [apply closed_empty|]. split.
  - intros x [a Ha]. simpl in Ha. by rewrite lookup_empty in Ha.
  - intros u v H%topic_edge_is_Some. destruct H as [a Ha]. simpl in Ha.
    by rewrite lookup_empty in Ha.
Qed.

(** A node whose name is not a minor-topic name may be added or updated. *)
Lemma kg_inv_add_node questions g n a :
  (∀ x, n ≠ minor_node x) → kg_inv questions g →
  kg_inv questions (add_node g n a).
Proof.
  intros Hn (Hc & Hminor & Hedge). split; [by apply closed_add_node|]. split.
  - intros x Hx. apply nodes_add_node_is_Some in Hx as [->|Hx].
    { by destruct (Hn x). }
    destruct (Hminor x Hx) as [Ht [_ Hty]]. split; [done|]. split.
    + apply nodes_add_node_is_Some. by right.
    + unfold node_attr in *. by rewrite nodes_add_node, decide_False.
  - intros u v H. by apply Hedge.
Qed.

(** The minor-topic node of a question of the corpus may be created. *)
Lemma kg_inv_add_minor questions g q a :
  q ∈ questions → nodes g !! minor_node (kp_key_of q) = None →
  a !! "type" = Some (AStr "minor_point") → kg_inv questions g →
  kg_inv questions (add_node g (minor_node (kp_key_of q)) a).
Proof.
  intros Hq Hnew Ha (Hc & Hminor & Hedge).
  split; [by apply closed_add_node|]. split.
  - intros x Hx. apply nodes_add_node_is_Some in Hx as [E|Hx].
    + apply minor_node_inj in E as <-. split; [by exists q|]. split.
      * apply nodes_add_node_is_Some. by left.
      * unfold node_attr. rewrite nodes_add_node, decide_True by done. simpl.
        by apply lookup_union_Some_l.
    + destruct (Hminor x Hx) as [Ht [_ Hty]]. split; [done|]. split.
      * apply nodes_add_node_is_Some. by right.
      * unfold node_attr in *. rewrite nodes_add_node.
        case_decide as E; [|done]. rewrite E in Hnew.
        destruct Hx as [? Hx]. congruence.
  - intros u v H. by apply Hedge.
Qed.

(** An edge between two nodes of the graph may be added when its relation is
    neither prerequisite nor leads_to, or when it joins minor-topic names. *)
Lemma kg_inv_add_edge questions g u v a :
  is_Some (nodes g !! u) → is_Some (nodes g !! v) →
  (∃ r, a !! "relation" = Some (AStr r)
        ∧ r ≠ "prerequisite" ∧ r ≠ "leads_to")
  ∨ (∃ x y, u = minor_node x ∧ v = minor_node y) →
  kg_inv questions g → kg_inv questions (add_edge g u v a).
Proof.
  intros Hu Hv Hrel (Hc & Hminor & Hedge).
  split; [by apply closed_add_edge|]. split.
  - intros x Hx. unfold minor_point, node_attr.
    rewrite nodes_add_edge_present in * by done. by apply Hminor.
  - intros u' v' H. destruct (decide ((u, v) = (u', v'))) as [[= <- <-]|Hne].
    + destruct Hrel as [(r & Hr & Hne1 & Hne2)|?]; [|done].
      unfold topic_edge, relation_is in H.
      rewrite !(edge_attr_add_edge_new _ _ _ _ _ _ Hr) in H.
      destruct H as [[= ->]|[= ->]]; done.
    + apply Hedge. unfold topic_edge, relation_is in *.
      by rewrite !edge_attr_add_edge_other in H.
Qed.

Lemma add_basic_node_inv questions g q :
  q ∈ questions → kg_inv questions g →
  kg_inv questions (add_basic_node g q)
  ∧ is_Some (nodes (add_basic_node g q) !! minor_node (kp_key_of q))
  ∧ ∀ n, is_Some (nodes g !! n) → is_Some (nodes (add_basic_node g q) !! n).
Proof.
  intros Hq Hinv. unfold add_basic_node.
  set (g1 := add_node g (question_node q) _).
  set (g2 := if has_node g1 (major_node (major_of q)) then g1 else _).
  set (g3 := if has_node g2 (minor_node (kp_key_of q)) then g2 else _).
  set (g4 := add_edge g3 _ _ _).
  assert (kg_inv questions g1) as H1.
  { apply kg_inv_add_node; [|done]. intros x. apply question_node_not_minor. }
  assert (∀ n, is_Some (nodes g !! n) → is_Some (nodes g1 !! n)) as M1.
  { intros n Hn. apply nodes_add_node_is_Some. by right. }
  assert (is_Some (nodes g1 !! question_node q)) as HQ1.
  { apply nodes_add_node_is_Some. by left. }
  assert (kg_inv questions g2
          ∧ is_Some (nodes g2 !! major_node (major_of q))
          ∧ ∀ n, is_Some (nodes g1 !! n) → is_Some (nodes g2 !! n))
    as (H2 & HM2 & M2).
  { unfold g2. destruct (has_node g1 _) eqn:E.
    - apply has_node_true in E. done.
    - split; [|split].
      + apply kg_inv_add_node; [|done]. intros x. apply major_node_not_minor.
      + apply nodes_add_node_is_Some. by left.
      + intros n Hn. apply nodes_add_node_is_Some. by right. }
  assert (kg_inv questions g3
          ∧ is_Some (nodes g3 !! minor_node (kp_key_of q))
          ∧ ∀ n, is_Some (nodes g2 !! n) → is_Some (nodes g3 !! n))
    as (H3 & Hm3 & M3).
  { unfold g3. destruct (has_node g2 _) eqn:E.
    - apply has_node_true in E. done.
    - apply has_node_false in E. split; [|split].
      + by apply kg_inv_add_minor.
      + apply nodes_add_node_is_Some. by left.
      + intros n Hn. apply nodes_add_node_is_Some. by right. }
  assert (kg_inv questions g4 ∧ nodes g4 = nodes g3) as [H4 N4].
  { split.
    - apply kg_inv_add_edge; [done|by apply M3|..|done].
      left. by exists "belongs_to".
    - apply nodes_add_edge_present; [done|by apply M3]. }
  split; [|split].
  - apply kg_inv_add_edge; [| |..|done].
    + rewrite N4. by apply M3, M2.
    + by rewrite N4.
    + left. by exists "tests".
  - rewrite nodes_add_edge_present, N4; [done|rewrite N4..]; [|done].
    by apply M3, M2.
  - intros n Hn.
    rewrite nodes_add_edge_present, N4; [|rewrite N4..]; [| |done].
    + by apply M3, M2, M1.
    + by apply M3, M2.
Qed.

Lemma _add_basic_nodes_inv questions qs g :
  (∀ q, q ∈ qs → q ∈ questions) → kg_inv questions g →
  kg_inv questions (_add_basic_nodes g qs)
  ∧ (∀ q, q ∈ qs →
          is_Some (nodes (_add_basic_nodes g qs) !! minor_node (kp_key_of q)))
  ∧ ∀ n, is_Some (nodes g !! n) → is_Some (nodes (_add_basic_nodes g qs) !! n).
Proof.
  unfold _add_basic_nodes. revert g.
  induction qs as [|q qs IH]; intros g Hsub Hinv; simpl.
  { split; [done|]. split; [|done]. intros q Hq. by apply elem_of_nil in Hq. }
  destruct (add_basic_node_inv questions g q) as (H1 & Hm & M1);
    [apply Hsub; by left|done|].
  destruct (IH (add_basic_node g q)) as (H2 & Hms & M2);
    [intros q' Hq'; apply Hsub; by right|done|].
  split; [done|]. split.
  - intros q' [->|Hq']%elem_of_cons; [by apply M2|by apply Hms].
  - intros n Hn. by apply M2, M1.
Qed.

Lemma extends_refl g : extends g g.
Proof. split; [done|]. intros n Hn. by left. Qed.

Lemma extends_trans g1 g2 g3 : extends g1 g2 → extends g2 g3 → extends g1 g3.
Proof.
  intros [M1 N1] [M2 N2]. split.
  - intros n Hn. by apply M2, M1.
  - intros n Hn. destruct (N2 n Hn) as [H|H]; [by apply N1|by right].
Qed.

Lemma preserves_refl questions g : preserves questions g g.
Proof. split; [apply extends_refl|done]. Qed.

Lemma preserves_trans questions g1 g2 g3 :
  preserves questions g1 g2 → preserves questions g2 g3 →
  preserves questions g1 g3.
Proof.
  intros (E1 & C1 & I1) (E2 & C2 & I2).
  split; [by eapply extends_trans|]. split; auto.
Qed.

(** A loop whose every step preserves, started where the topic node [mn] is
    present, preserves. *)
Lemma fold_left_preserves questions (f : DiGraph → string → DiGraph) mn l g :
  (∀ g x, is_Some (nodes g !! mn) → preserves questions g (f g x)) →
  is_Some (nodes g !! mn) → preserves questions g (fold_left f l g).
Proof.
  intros Hstep. revert g. induction l as [|x l IH]; intros g Hmn; simpl.
  { apply preserves_refl. }
  pose proof (Hstep g x Hmn) as Hp.
  eapply preserves_trans; [done|]. apply IH. by apply Hp.
Qed.

Lemma preserves_add_node questions g n a :
  (∀ x, n ≠ minor_node x) → preserves questions g (add_node g n a).
Proof.
  intros Hn. split; [split|split].
  - intros m Hm. apply nodes_add_node_is_Some. by right.
  - intros m [<-|Hm]%nodes_add_node_is_Some; [by right|by left].
  - apply closed_add_node.
  - by apply kg_inv_add_node.
Qed.

Lemma preserves_add_edge questions g u v a :
  is_Some (nodes g !! u) → is_Some (nodes g !! v) →
  (∃ r, a !! "relation" = Some (AStr r)
        ∧ r ≠ "prerequisite" ∧ r ≠ "leads_to")
  ∨ (∃ x y, u = minor_node x ∧ v = minor_node y) →
  preserves questions g (add_edge g u v a).
Proof.
  intros Hu Hv Hrel. split; [|split].
  - unfold extends. rewrite (nodes_add_edge_present g u v a Hu Hv).
    split; [done|]. intros n Hn. by left.
  - apply closed_add_edge.
  - by apply kg_inv_add_edge.
Qed.

(** A node with a fresh name that is not a minor-topic name, joined to the
    topic node by an edge of another relation: concepts and methods. *)
Lemma preserves_add_leaf questions g mn n a r :
  (∀ x, n ≠ minor_node x) → r ≠ "prerequisite" → r ≠ "leads_to" →
  is_Some (nodes g !! mn) →
  preserves questions g
    (add_edge (if has_node g n then g else add_node g n a) mn n
       {[ "relation" := AStr r ]}).
Proof.
  intros Hn Hr1 Hr2 Hmn.
  set (g1 := if has_node g n then g else add_node g n a).
  assert (preserves questions g g1 ∧ is_Some (nodes g1 !! n)) as [P1 Hn1].
  { unfold g1. destruct (has_node g n) eqn:E.
    - apply has_node_true in E. split; [apply preserves_refl|done].
    - split; [by apply preserves_add_node|].
      apply nodes_add_node_is_Some. by left. }
  eapply preserves_trans; [done|].
  apply preserves_add_edge; [by apply P1|done|].
  left. exists r. by rewrite lookup_singleton_eq.
Qed.

Lemma add_concept_preserves questions g kp concept :
  is_Some (nodes g !! minor_node kp) →
  preserves questions g (add_concept (minor_node kp) g concept).
Proof.
  intros Hmn. unfold add_concept. apply preserves_add_leaf; [|done..].
  intros x. apply concept_node_not_minor.
Qed.

Lemma add_method_preserves questions g kp method :
  is_Some (nodes g !! minor_node kp) →
  preserves questions g (add_method (minor_node kp) g method).
Proof.
  intros Hmn. unfold add_method. apply preserves_add_leaf; [|done..].
  intros x. apply method_node_not_minor.
Qed.

Lemma add_prerequisite_preserves questions g kp prereq :
  is_Some (nodes g !! minor_node kp) →
  preserves questions g (add_prerequisite (minor_node kp) g prereq).
Proof.
  intros Hmn. unfold add_prerequisite.
  destruct (has_node g (minor_node prereq)) eqn:E; [|apply preserves_refl].
  apply has_node_true in E. apply preserves_add_edge; [done..|].
  right. by exists prereq, kp.
Qed.

Lemma add_next_topic_preserves questions g kp next_topic :
  is_Some (nodes g !! minor_node kp) →
  preserves questions g (add_next_topic (minor_node kp) g next_topic).
Proof.
  intros Hmn. unfold add_next_topic.
  destruct (has_node g (minor_node next_topic)) eqn:E;
    [|apply preserves_refl].
  apply has_node_true in E. apply preserves_add_edge; [done..|].
  right. by exists kp, next_topic.
Qed.

Lemma preserves_node questions g g' n :
  preserves questions g g' → is_Some (nodes g !! n) →
  is_Some (nodes g' !! n).
Proof. intros [[M _] _]. apply M. Qed.

Lemma _add_relations_to_graph_preserves questions g kp relations :
  is_Some (nodes g !! minor_node kp) →
  preserves questions g (_add_relations_to_graph g kp relations).
Proof.
  intros Hmn. unfold _add_relations_to_graph.
  set (g1 := fold_left (add_concept _) _ g).
  set (g2 := fold_left (add_prerequisite _) _ g1).
  set (g3 := fold_left (add_next_topic _) _ g2).
  assert (preserves questions g g1) as P1.
  { apply (fold_left_preserves _ _ (minor_node kp)); [|done].
    intros. by apply add_concept_preserves. }
  pose proof (preserves_node _ _ _ _ P1 Hmn) as Hmn1.
  assert (preserves questions g1 g2) as P2.
  { apply (fold_left_preserves _ _ (minor_node kp)); [|done].
    intros. by apply add_prerequisite_preserves. }
  pose proof (preserves_node _ _ _ _ P2 Hmn1) as Hmn2.
  assert (preserves questions g2 g3) as P3.
  { apply (fold_left_preserves _ _ (minor_node kp)); [|done].
    intros. by apply add_next_topic_preserves. }
  pose proof (preserves_node _ _ _ _ P3 Hmn2) as Hmn3.
  eapply preserves_trans; [done|]. eapply preserves_trans; [done|].
  eapply preserves_trans; [done|].
  apply (fold_left_preserves _ _ (minor_node kp)); [|done].
  intros. by apply add_method_preserves.
Qed.

Lemma elem_of_dict_set {V} (d : dict V) k v k' v' :
  (k', v') ∈ dict_set d k v → k' = k ∨ (k', v') ∈ d.
Proof.
  induction d as [|[k0 v0] d IH]; simpl.
  - intros [= -> ->]%list_elem_of_singleton. by left.
  - case_decide as E.
    + intros [[= -> ->]|H]%elem_of_cons; [by left|]. right. by right.
    + intros [[= -> ->]|H]%elem_of_cons; [right; by left|].
      destruct (IH H) as [->|?]; [by left|]. right. by right.
Qed.

Lemma group_questions_keys questions k qs :
  (k, qs) ∈ group_questions questions →
  ∃ q, q ∈ questions ∧ k = kp_key_of q.
Proof.
  unfold group_questions.
  assert (∀ l (acc : dict (list Question)),
            (∀ k qs, (k, qs) ∈ acc → ∃ q, q ∈ questions ∧ k = kp_key_of q) →
            (∀ q, q ∈ l → q ∈ questions) →
            ∀ k qs,
              (k, qs) ∈ fold_left
                (λ kp_groups q,
                   dict_set kp_groups (kp_key_of q)
                     (default [] (dict_get kp_groups (kp_key_of q)) ++ [q]))
                l acc →
              ∃ q, q ∈ questions ∧ k = kp_key_of q) as Hgen.
  { induction l as [|q l IH]; intros acc Hacc Hl k' qs' Hin; simpl in Hin.
    { by eapply Hacc. }
    eapply IH; [| |done].
    - intros k0 qs0 [->|H]%elem_of_dict_set; [|by eapply Hacc].
      exists q. split; [|done]. apply Hl. by left.
    - intros q' Hq'. apply Hl. by right. }
  apply Hgen; [|done]. intros k0 qs0 H. by apply elem_of_nil in H.
Qed.

Lemma _extract_relations_with_llm_preserves llm questions g :
  (∀ q, q ∈ questions → is_Some (nodes g !! minor_node (kp_key_of q))) →
  preserves questions g (_extract_relations_with_llm llm g questions).
Proof.
  intros Hnodes. unfold _extract_relations_with_llm.
  assert (∀ k qs, (k, qs) ∈ group_questions questions →
                   is_Some (nodes g !! minor_node k)) as Hkeys.
  { intros k qs (q & Hq & ->)%group_questions_keys. by apply Hnodes. }
  clear Hnodes. revert g Hkeys.
  induction (group_questions questions) as [|[k qs] groups IH];
    intros g Hkeys; simpl.
  { apply preserves_refl. }
  assert (preserves questions g
            (_add_relations_to_graph g k (llm k (take 3 qs)))) as P.
  { apply _add_relations_to_graph_preserves. apply (Hkeys k qs). by left. }
  eapply preserves_trans; [done|]. apply IH.
  intros k' qs' H. apply (preserves_node _ _ _ _ P), (Hkeys k' qs'). by right.
Qed.

(** The graph a builder with graph [g] constructs keeps the invariant. *)
Lemma build_from_questions_inv llm questions g cache :
  kg_inv questions g →
  kg_inv questions (build_from_questions llm g cache questions true).
Proof.
  intros Hinv. unfold build_from_questions.
  destruct (_add_basic_nodes_inv questions questions g) as (H1 & Hm & _);
    [done..|].
  by apply _extract_relations_with_llm_preserves.
Qed.

(** C9. On a fresh builder, whatever the relation extractor returns: every
    edge of the built graph whose relation is prerequisite or leads_to joins
    two nodes that are minor-topic nodes (type [minor_point]) of questions of
    the corpus; a name [KP_Minor:p] is a node of the graph only when [p] is
    the topic of a question, and otherwise no edge starts or ends there.  In
    [_add_relations_to_graph], called as the build calls it (the topic's own
    node is present), a prerequisite or next-topic string whose node is not in
    the graph adds neither that node nor an edge from or to it. *)
Theorem build_relation_edges_between_topic_nodes
    (llm : string → list Question → Relations) (questions : list Question)
    (cache : option DiGraph) :
  let g := build_from_questions llm DiGraph.empty cache questions true in
  build_from_questions llm DiGraph.empty None questions false = g
  ∧ (∀ u v, topic_edge g u v →
            topic_of questions u ∧ topic_of questions v
            ∧ minor_point g u ∧ minor_point g v)
  ∧ (∀ p, is_Some (nodes g !! minor_node p) →
          topic_of questions (minor_node p))
  ∧ (∀ p n, ¬ topic_of questions (minor_node p) →
            nodes g !! minor_node p = None
            ∧ edges g !! (minor_node p, n) = None
            ∧ edges g !! (n, minor_node p) = None)
  ∧ (∀ g0 kp relations p,
       closed g0 → is_Some (nodes g0 !! minor_node kp) →
       nodes g0 !! minor_node p = None →
       let g1 := _add_relations_to_graph g0 kp relations in
       nodes g1 !! minor_node p = None
       ∧ edges g1 !! (minor_node p, minor_node kp) = None
       ∧ edges g1 !! (minor_node kp, minor_node p) = None).
Proof.
  intros g.
  assert (kg_inv questions g) as (Hc & Hminor & Hedge).
  { apply build_from_questions_inv, kg_inv_empty. }
  assert (∀ (g' : DiGraph) n m, closed g' → nodes g' !! n = None →
            edges g' !! (n, m) = None ∧ edges g' !! (m, n) = None) as Hiso.
  { intros g' n m Hc' Hn. split.
    - destruct (edges g' !! (n, m)) eqn:E; [|done].
      destruct (Hc' n m) as [[? H] _]; [by eexists|congruence].
    - destruct (edges g' !! (m, n)) eqn:E; [|done].
      destruct (Hc' m n) as [_ [? H]]; [by eexists|congruence]. }
  split; [done|]. split; [|split; [|split]].
  - intros u v Hrel. destruct (Hedge u v Hrel) as (x & y & -> & ->).
    destruct (Hc _ _ (topic_edge_is_Some _ _ _ Hrel)) as [Hu Hv].
    destruct (Hminor x Hu) as [? ?], (Hminor y Hv) as [? ?]. done.
  - intros p Hp. by apply Hminor.
  - intros p n Hp.
    assert (nodes g !! minor_node p = None) as Hnone.
    { destruct (nodes g !! minor_node p) eqn:E; [|done].
      destruct Hp. apply Hminor. by eexists. }
    split; [done|]. by apply Hiso.
  - intros g0 kp relations p Hc0 Hkp Hp g1.
    destruct (_add_relations_to_graph_preserves questions g0 kp relations Hkp)
      as ([_ Hnew] & Hc1 & _).
    assert (nodes g1 !! minor_node p = None) as Hnone.
    { destruct (nodes g1 !! minor_node p) eqn:E; [|done].
      destruct (Hnew (minor_node p)) as [[? H]|H]; [by eexists|congruence|].
      by destruct (H p). }
    split; [done|]. apply Hiso; [by apply Hc1|done].
Qed.

(** The graph of the two-question corpus: seven nodes; the two topic edges
    are there; the prerequisite that names a topic without questions left
    neither a node nor an edge. *)
Example build_drops_dangling_reference :
  elements (dom (nodes corpus_graph))
    = ["KP_Minor:代数/方程"; "KP_Minor:代数/不等式"; "KP_Major:代数";
       "Concept:等式"; "Method:移项"; "Q1"; "Q2"]
  ∧ edge_attr corpus_graph "KP_Minor:代数/不等式" "KP_Minor:代数/方程" "relation"
    = Some (AStr "prerequisite")
  ∧ edge_attr corpus_graph "KP_Minor:代数/方程" "KP_Minor:代数/不等式" "relation"
    = Some (AStr "leads_to")
  ∧ has_node corpus_graph "KP_Minor:几何/三角" = false
  ∧ has_edge corpus_graph "KP_Minor:几何/三角" "KP_Minor:代数/方程" = false
  ∧ size (edges corpus_graph) = 8.
Proof. repeat split; vm_compute; reflexivity. Qed.

End kg_builder.

Section relevance_score.
Import Py DiGraph RAG.

Lemma closed_example_graph : closed example_graph.
Proof.
  apply (build_from_questions_inv _ [example_question]), kg_inv_empty.
Qed.

(** C7, as the code has it.  In a graph whose edges join nodes, the relevance
    of a question node for a target node is 1/(d+1) when [d] is the number of
    edges of a shortest directed path from the question node to the target,
    and 0.5 when no directed path leads from the question node to the target
    (a path from the target to the question node is not looked for) or when
    one of the two is not a node.  A question node with an edge to the target
    scores 0.5 (one edge), a question node two edges away scores 1/3, and 1.0
    is the score of a node for itself.  The score of a question with a
    numeric difficulty adds the relevance with weight 0.3. *)
Theorem calculate_relevance_shortest_path (g : DiGraph) (q t : string) :
  closed g →
  (∀ d, has_node g q = true → has_node g t = true → shortest g q t d →
        _calculate_relevance g q t = (1.0 / float_of_nat (d + 1))%float)
  ∧ ((∀ l, ¬ is_path g q l t) → _calculate_relevance g q t = 0.5%float)
  ∧ (has_node g q = false ∨ has_node g t = false →
     _calculate_relevance g q t = 0.5%float)
  ∧ (q ≠ t → has_edge g q t = true → _calculate_relevance g q t = 0.5%float)
  ∧ (has_node g q = true → has_node g t = true → shortest g q t 2 →
     _calculate_relevance g q t = (1 / 3)%float)
  ∧ (has_node g q = true → _calculate_relevance g q q = 1.0%float)
  ∧ (∀ q_data x mastery diversity,
       has_node g q = true → q_difficulty q_data = Some (DNumber x) →
       ∃ path_score,
         _calculate_path_fitness g q = Ok path_score
         ∧ _calculate_question_score g q q_data t mastery diversity
           = Ok (0.4 * (1.0 - abs (x - _get_target_difficulty mastery))
                 + 0.3 * _calculate_relevance g q t
                 + 0.2 * path_score + 0.1 * diversity)%float).
Proof.
  intros Hc. split; [|split; [|split; [|split; [|split; [|split]]]]].
  - intros d Hq Ht Hd. by apply _calculate_relevance_path.
  - apply _calculate_relevance_no_path.
  - apply _calculate_relevance_missing.
  - intros Hne He%has_edge_true. destruct (Hc q t He) as [Hq Ht].
    rewrite (_calculate_relevance_path g q t 1);
      [done|done|by apply has_node_true..|by apply shortest_edge].
  - intros Hq Ht Hd. by rewrite (_calculate_relevance_path g q t 2).
  - intros Hq. rewrite (_calculate_relevance_path g q q 0);
      [done..|apply shortest_refl].
  - intros q_data x mastery diversity Hq Hx.
    unfold _calculate_question_score, _calculate_path_fitness.
    rewrite Hx, Hq; simpl. by eexists.
Qed.

(** On the graph of the one-question corpus: the question is one edge from
    its minor topic and two edges from its major topic. *)
Lemma calculate_relevance_shortest_path_witness :
  closed example_graph
  ∧ _calculate_relevance example_graph example_q_node example_minor
    = 0.5%float
  ∧ _calculate_relevance example_graph example_q_node example_q_node
    = 1.0%float.
Proof.
  split; [exact closed_example_graph|].
  destruct (calculate_relevance_shortest_path example_graph example_q_node
              example_minor closed_example_graph)
    as (_ & _ & _ & Hedge & _ & Hself & _).
  split.
  - apply Hedge; [discriminate|vm_compute; reflexivity].
  - apply Hself. vm_compute; reflexivity.
Defined.

(** The scenario of the specification does not hold.  The question node of
    the built graph is joined to its minor topic by a [tests] edge and scores
    0.5, not 1.0.  In the reversed graph a path of two edges leads from the
    topic to the question, and the question scores 0.5, not 1/3. *)
Lemma calculate_relevance_direct_edge_is_half :
  edge_attr example_graph example_q_node example_minor "relation"
    = Some (AStr "tests")
  ∧ _calculate_relevance example_graph example_q_node example_minor
    = 0.5%float
  ∧ flt (_calculate_relevance example_graph example_q_node example_minor) 1.0
  ∧ is_path reversed_graph example_minor ["Concept:等式"; example_q_node]
      example_q_node
  ∧ _calculate_relevance reversed_graph example_q_node example_minor
    = 0.5%float
  ∧ flt (1 / 3)
      (_calculate_relevance reversed_graph example_q_node example_minor).
Proof.
  split; [vm_compute; reflexivity|]. split; [vm_compute; reflexivity|].
  split; [vm_compute; reflexivity|]. split.
  { simpl. split; [|split; [|done]]; vm_compute; by eexists. }
  split; vm_compute; reflexivity.
Qed.

(** Two edges away: the question and the major topic of the built graph. *)
Example calculate_relevance_two_hops :
  distance example_graph example_q_node example_major = Some 2
  ∧ _calculate_relevance example_graph example_q_node example_major
    = (1 / 3)%float.
Proof. split; vm_compute; reflexivity. Qed.

End relevance_score.
